(** * tendermint-sg: staking ledger, votes and tallying

    A shallow embedding of the proof-of-stake layer that tendermint-sg adds
    on top of spartan-gold: the class [StakeBlock] (stake-block.js), the
    class [Vote] (vote.js), the consensus [Validator] (the class with
    [verifyAndVote], [countVotes] and [updateRoundAccumPower]) and the
    staking mixin (stake-mixin.js), followed by the properties of the
    specification that concern them.

    Conventions.
    - A JavaScript number is a [num]: an integer, an infinity or NaN.
      Sums and differences of integers are taken exact ([Z]); this is what
      JavaScript computes while magnitudes stay below 2^52.  Two values of
      the code need not be integers.  The quotient [2 * totalStake / 3] of
      [countVotes] is only ever compared with an integer, and in that range
      the comparison in binary64 is the exact one, so it is modelled as
      such.  The proportion [amountStaked / totalBonded] of [punishCheater]
      is multiplied and floored, and there binary64 differs from exact
      arithmetic already on small integers, so this one computation is
      evaluated in IEEE 754 binary64 with the kernel's primitive floats.
    - A [Map] is a [gmap]; every [forEach] over a [Map] in the code updates,
      for each key, an entry under that same key or an accumulator with a
      commutative sum, so the insertion order of the [Map] plays no role.
    - A plain object used as a dictionary whose keys are enumerated
      ([Object.keys(ballotBox)]) is an association list in insertion order.
    - Logging ([console.log], [validator.log]) is not modelled. *)

From stdpp Require Import gmap strings list fin_maps pretty.
From Stdlib Require Import ZArith Lia.
From Stdlib Require Import Floats.PrimFloat Floats.FloatOps Floats.SpecFloat.

Local Open Scope Z_scope.

(** ** JavaScript numbers *)

Inductive num : Type :=
  | Int (z : Z)
  | Inf (negative : bool)
  | NaN.

#[global] Instance num_eq_dec : EqDecision num.
Proof. solve_decision. Defined.

Definition isInt (x : num) : bool :=
  match x with Int _ => true | _ => false end.

(** [x + y] *)
Definition nadd (x y : num) : num :=
  match x, y with
  | Int a, Int b => Int (a + b)
  | Int _, Inf s | Inf s, Int _ => Inf s
  | Inf s, Inf t => if Bool.eqb s t then Inf s else NaN
  | _, _ => NaN
  end.

Definition nneg (x : num) : num :=
  match x with
  | Int a => Int (- a)
  | Inf s => Inf (negb s)
  | NaN => NaN
  end.

(** [x - y] *)
Definition nsub (x y : num) : num := nadd x (nneg y).

(** [x > y]; every comparison with NaN is false. *)
Definition ngt (x y : num) : bool :=
  match x, y with
  | Int a, Int b => b <? a
  | Int _, Inf s => s
  | Inf s, Int _ => negb s
  | Inf s, Inf t => negb s && t
  | _, _ => false
  end.

(** [x - y] where [x] was read from a [Map] or an object: reading an absent
    key gives [undefined], and [undefined - y] is NaN. *)
Definition toNumber (o : option num) : num := default NaN o.

(** [x || 0] where [x] was read from a [Map] or an object: [undefined], NaN
    and 0 are falsy. *)
Definition orZero (o : option num) : num :=
  match o with
  | Some NaN | None => Int 0
  | Some x => x
  end.

(** The number [z] as a binary64 float (round to nearest even). *)
Definition Z2float (z : Z) : float :=
  match z with
  | Z0 => PrimFloat.zero
  | Zpos p => SF2Prim (binary_round prec emax false p 0)
  | Zneg p => SF2Prim (binary_round prec emax true p 0)
  end.

Definition toFloat (x : num) : float :=
  match x with
  | Int z => Z2float z
  | Inf s => if s then PrimFloat.neg_infinity else PrimFloat.infinity
  | NaN => PrimFloat.nan
  end.

(** [Math.floor]; the result of the floor of a float is an integer, an
    infinity or NaN. *)
Definition Math_floor (f : float) : num :=
  match Prim2SF f with
  | S754_nan => NaN
  | S754_infinity s => Inf s
  | S754_zero _ => Int 0
  | S754_finite s m e =>
      let v := if s then Z.neg m else Z.pos m in
      Int (if 0 <=? e then v * 2 ^ e else v / 2 ^ (- e))
  end.

(** ** stake-block.js: [StakeBlock] *)

Definition UNSTAKE_DELAY : Z := 35.

Record UnstakeEvent : Type := { clientID : string; amount : Z }.

#[global] Instance UnstakeEvent_eq_dec : EqDecision UnstakeEvent.
Proof. solve_decision. Defined.

(** The fields of a block that the staking layer reads and writes.  The keys
    of [unstakingEvents] are the heights [chainLength + UNSTAKE_DELAY]
    (numbers); [punishCheater] also calls [delete] on it with an address (a
    string), so a key is a number or a string and, as in a [Map], a string
    is never equal to a number. *)
Record StakeBlock : Type := {
  rewardAddr : string;
  chainLength : Z;
  balances : gmap string num;
  stakeBalances : gmap string num;
  unstakingEvents : gmap (Z + string) (list UnstakeEvent);
  accumPower : gmap string num
}.

Definition set_balances (f : gmap string num → gmap string num) (b : StakeBlock) :=
  {| rewardAddr := rewardAddr b; chainLength := chainLength b;
     balances := f (balances b); stakeBalances := stakeBalances b;
     unstakingEvents := unstakingEvents b; accumPower := accumPower b |}.

Definition set_stakeBalances (f : gmap string num → gmap string num) (b : StakeBlock) :=
  {| rewardAddr := rewardAddr b; chainLength := chainLength b;
     balances := balances b; stakeBalances := f (stakeBalances b);
     unstakingEvents := unstakingEvents b; accumPower := accumPower b |}.

Definition set_unstakingEvents
    (f : gmap (Z + string) (list UnstakeEvent) → gmap (Z + string) (list UnstakeEvent))
    (b : StakeBlock) :=
  {| rewardAddr := rewardAddr b; chainLength := chainLength b;
     balances := balances b; stakeBalances := stakeBalances b;
     unstakingEvents := f (unstakingEvents b); accumPower := accumPower b |}.

Definition set_accumPower (f : gmap string num → gmap string num) (b : StakeBlock) :=
  {| rewardAddr := rewardAddr b; chainLength := chainLength b;
     balances := balances b; stakeBalances := stakeBalances b;
     unstakingEvents := unstakingEvents b; accumPower := f (accumPower b) |}.

(** The sum of the values of a map, as the [forEach] loops of
    [getTotalStake] and [updateAccumPower] accumulate it. *)
Definition sumValues (m : gmap string num) : num :=
  map_fold (λ _ amountBonded totalStake, nadd totalStake amountBonded) (Int 0) m.

(** [amountGoldStaked(addr)]: [this.stakeBalances.get(addr) || 0]. *)
Definition amountGoldStaked (b : StakeBlock) (addr : string) : num :=
  orZero (stakeBalances b !! addr).

(** [balanceOf(addr)] of spartan-gold's [Block], the base class:
    [this.balances.get(addr) || 0]. *)
Definition balanceOf (b : StakeBlock) (addr : string) : num :=
  orZero (balances b !! addr).

(** [getTotalStake()] *)
Definition getTotalStake (b : StakeBlock) : num := sumValues (stakeBalances b).

(** One iteration of the [forEach] of [handleUnstakingEvents]. *)
Definition releaseStake (sb : gmap string num) (ev : UnstakeEvent) : gmap string num :=
  let totalStaked := sb !! clientID ev in
  <[clientID ev := nsub (toNumber totalStaked) (Int (amount ev))]> sb.

(** [handleUnstakingEvents()] *)
Definition handleUnstakingEvents (b : StakeBlock) : StakeBlock :=
  match unstakingEvents b !! inl (chainLength b) with
  | Some q =>
      set_unstakingEvents (delete (inl (chainLength b)))
        (set_stakeBalances (λ sb, foldl releaseStake sb q) b)
  | None => b
  end.

(** [stakeGold(addr, amountStaked)] *)
Definition stakeGold (addr : string) (amountStaked : Z) (b : StakeBlock) : StakeBlock :=
  let currentStake := amountGoldStaked b addr in
  set_stakeBalances (insert addr (nadd currentStake (Int amountStaked))) b.

(** [unstakeGold(addr, amountUnstaked)] *)
Definition unstakeGold (addr : string) (amountUnstaked : Z) (b : StakeBlock) : StakeBlock :=
  let unstakingRound := chainLength b + UNSTAKE_DELAY in
  let q := default [] (unstakingEvents b !! inl unstakingRound) in
  set_unstakingEvents
    (insert (inl unstakingRound) (q ++ [{| clientID := addr; amount := amountUnstaked |}])) b.

(** The [forEach] of [updateAccumPower]: the state is the map of accumulated
    power and [totalBonded]. *)
Definition accumulate (addr : string) (amountBonded : num)
    (st : gmap string num * num) : gmap string num * num :=
  let power := orZero (st.1 !! addr) in
  (<[addr := nadd power amountBonded]> st.1, nadd st.2 amountBonded).

(** [updateAccumPower(proposerAddr)], on the two maps it uses;
    [Validator.updateRoundAccumPower] is the same code on
    [this.roundAccumPower] and [this.currentBlock.stakeBalances]. *)
Definition updatePower (stake power : gmap string num) (proposerAddr : string)
    : gmap string num :=
  let '(power1, totalBonded) := map_fold accumulate (power, Int 0) stake in
  let currentPower := power1 !! proposerAddr in
  <[proposerAddr := nsub (toNumber currentPower) totalBonded]> power1.

Definition updateAccumPower (proposerAddr : string) (b : StakeBlock) : StakeBlock :=
  set_accumPower (λ power, updatePower (stakeBalances b) power proposerAddr) b.

(** The block constructor, for the fields above: the three maps are copied
    from [prevBlock], the height is one more (spartan-gold's [Block]), and
    the unstaking events of the new height are handled.  The base
    constructor also copies [balances] and credits the coinbase reward of
    [prevBlock] in it; the reward is not modelled. *)
Definition newStakeBlock (rewardAddr' : string) (prevBlock : StakeBlock) : StakeBlock :=
  handleUnstakingEvents
    {| rewardAddr := rewardAddr'; chainLength := chainLength prevBlock + 1;
       balances := balances prevBlock; stakeBalances := stakeBalances prevBlock;
       unstakingEvents := unstakingEvents prevBlock; accumPower := accumPower prevBlock |}.

(** A function that returns or throws. *)
Inductive Result (A : Type) : Type :=
  | Returns (a : A)
  | Throws.
Arguments Returns {A} a.
Arguments Throws {A}.

(** ** Messages and transaction payloads *)

(** A message as it is received: the plain object from which [new Vote] and
    [new Proposal] copy their fields.  A vote has no [block] and a proposal
    has no [type]. *)
Module Msg.
Record t : Type := mk {
  from : string;
  height : Z;
  round : Z;
  type : option string;
  blockID : string;
  block : option string;
  pubKey : string;
  sig : option string
}.
End Msg.

(** The [data] of a transaction: absent, one of the three payloads of the
    staking layer, or a payload with another [type]. *)
Inductive TxData : Type :=
  | NoData
  | STAKE (amountStaked : Z)
  | UNSTAKE (amountToUnstake : Z)
  | EVIDENCE (byzantinePlayer : string) (msg1 msg2 : Msg.t)
  | OtherData (type : string).

(** ** The host platform: spartan-gold's [utils] and [JSON.stringify] *)

(** The cryptographic helpers of spartan-gold ([utils.hash], [utils.sign],
    [utils.verifySignature], [utils.addressMatchesKey]) and the
    serialisations [JSON.stringify] of the objects whose hash is an
    identifier.  They are external to the repository; the development is
    parametric in them. *)
Class Utils : Type := {
  hash : string → string;
  sign : string → string → string;
  verifySignature : string → string → string → bool;
  addressMatchesKey : string → string → bool;
  (** [{from, height, round, type, blockID, pubKey}] of a vote *)
  stringifyVote : string → Z → Z → option string → string → string → string;
  (** [{from, blockID, block, height, round, pubKey}] of a proposal *)
  stringifyProposal : string → string → option string → Z → Z → string → string;
  (** [{from, nonce, pubKey, outputs, fee, data}] of a transaction *)
  stringifyTx : string → Z → string → list (Z * string) → Z → TxData → string
}.

(** [StakeBlockchain.PREVOTE] (stake-blockchain.js). *)
Definition PREVOTE : string := "PREVOTE".


(** Modelled from the spec: [StakeBlockchain.COMMIT], likewise. *)
Definition COMMIT : string := "COMMIT".

(** Modelled from the spec: [StakeBlockchain.POST_TRANSACTION], likewise. *)
Definition POST_TRANSACTION : string := "POST_TRANSACTION".

(** Modelled from the spec: [StakeBlockchain.NIL], likewise; the spec has it
    as a sentinel that is the identifier of no block.  [countVotes] treats
    it as any other identifier. *)
Definition NIL : string := "NIL".

(** ** spartan-gold's [Transaction], as far as the staking layer uses it *)
Module Tx.
Record t : Type := mk {
  from : string;
  nonce : Z;
  pubKey : string;
  sig : option string;
  outputs : list (Z * string);
  fee : Z;
  data : TxData
}.

Section WithUtils.
Context `{Utils}.

Definition id (tx : t) : string :=
  hash (stringifyTx (from tx) (nonce tx) (pubKey tx) (outputs tx) (fee tx) (data tx)).

(** [tx.sign(privKey)] *)
Definition signed (privKey : string) (tx : t) : t :=
  {| from := from tx; nonce := nonce tx; pubKey := pubKey tx;
     sig := Some (sign privKey (id tx));
     outputs := outputs tx; fee := fee tx; data := data tx |}.
End WithUtils.
End Tx.

(** ** vote.js: [Vote] *)
Module Vote.
Record t : Type := mk {
  from : string;
  height : Z;
  round : Z;
  type : option string;
  blockID : string;
  pubKey : string;
  sig : option string
}.

(** [new Vote({ from, height, round, type, blockID, pubKey, sig })] *)
Definition new (m : Msg.t) : t :=
  {| from := Msg.from m; height := Msg.height m; round := Msg.round m;
     type := Msg.type m; blockID := Msg.blockID m; pubKey := Msg.pubKey m;
     sig := Msg.sig m |}.

(** The vote as a plain object again, when it is put into a transaction
    or broadcast. *)
Definition toMsg (v : t) : Msg.t :=
  {| Msg.from := from v; Msg.height := height v; Msg.round := round v;
     Msg.type := type v; Msg.blockID := blockID v; Msg.block := None;
     Msg.pubKey := pubKey v; Msg.sig := sig v |}.

Section WithUtils.
Context `{Utils}.

(** [get id()] *)
Definition id (v : t) : string :=
  hash (stringifyVote (from v) (height v) (round v) (type v) (blockID v) (pubKey v)).

(** [hasValidSignature()] *)
Definition hasValidSignature (v : t) : bool :=
  match sig v with
  | None => false
  | Some s =>
      if negb (addressMatchesKey (from v) (pubKey v)) then false
      else verifySignature (pubKey v) (id v) s
  end.

(** [isValid(validator)]; [validator.height] and [validator.round] are
    all it reads of the validator. *)
Definition isValid (validatorHeight validatorRound : Z) (v : t) : bool :=
  if validatorHeight >? height v then false
  else if (validatorRound >? round v) && negb (bool_decide (type v = Some COMMIT))
  then false
  else if negb (hasValidSignature v) then false
  else true.
End WithUtils.

(** Modelled from the spec: [isStale(height, round)], which [countVotes]
    calls and the [Vote] of the sources does not define.  A vote is stale
    if its height is below the current one, or its round is below the
    current one and it is not a commit. *)
Definition isStale (v : t) (currentHeight currentRound : Z) : bool :=
  (height v <? currentHeight)
  || ((round v <? currentRound) && negb (bool_decide (type v = Some COMMIT))).

(** [fresherThan(otherVote)] *)
Definition fresherThan (this otherVote : t) : bool :=
  if height this >? height otherVote then true
  else if height this <? height otherVote then false
  else round this >? round otherVote.
End Vote.

(** ** proposal.js: [Proposal] *)
Module Proposal.
(** Modelled from the spec: the class [Proposal], which stake-block.js
    requires and the sources do not contain.  A proposal is
    [{from, blockID, block, height, round, pubKey, sig}], its identity is
    the hash of the fields other than the signature, and its signature is
    valid when it verifies against [pubKey] over the identity and [from]
    is the address of [pubKey]. *)
Record t : Type := mk {
  from : string;
  blockID : string;
  block : option string;
  height : Z;
  round : Z;
  pubKey : string;
  sig : option string
}.

(** Modelled from the spec: [new Proposal(msg)], which copies the fields. *)
Definition new (m : Msg.t) : t :=
  {| from := Msg.from m; blockID := Msg.blockID m; block := Msg.block m;
     height := Msg.height m; round := Msg.round m; pubKey := Msg.pubKey m;
     sig := Msg.sig m |}.

Section WithUtils.
Context `{Utils}.

(** Modelled from the spec: the identity of a proposal. *)
Definition id (p : t) : string :=
  hash (stringifyProposal (from p) (blockID p) (block p) (height p) (round p) (pubKey p)).

(** Modelled from the spec: [hasValidSignature()] of a proposal. *)
Definition hasValidSignature (p : t) : bool :=
  match sig p with
  | None => false
  | Some s =>
      if negb (addressMatchesKey (from p) (pubKey p)) then false
      else verifySignature (pubKey p) (id p) s
  end.
End WithUtils.
End Proposal.

(** ** stake-block.js: [punishCheater] *)

(** [Math.floor(stakeAmount * proportion)] with
    [proportion = amountStaked / totalBonded], in binary64. *)
Definition share (stakeAmount amountStaked totalBonded : num) : num :=
  let proportion := PrimFloat.div (toFloat amountStaked) (toFloat totalBonded) in
  Math_floor (PrimFloat.mul (toFloat stakeAmount) proportion).

(** The [forEach] that divides the seized stake among the validators that
    remain; one iteration credits [addr]. *)
Definition reward (stakeAmount totalBonded : num) (addr : string) (amountStaked : num)
    (bal : gmap string num) : gmap string num :=
  let b := orZero (bal !! addr) in
  <[addr := nadd b (share stakeAmount amountStaked totalBonded)]> bal.

(** The body of the [if] of [punishCheater]. *)
Definition slash (cheaterAddr : string) (b : StakeBlock) : StakeBlock :=
  let balance := balanceOf b cheaterAddr in
  let stakeAmount := amountGoldStaked b cheaterAddr in
  let b1 := set_accumPower (delete cheaterAddr) b in
  let b2 := set_stakeBalances (delete cheaterAddr) b1 in
  let b3 := set_unstakingEvents (delete (inr cheaterAddr)) b2 in
  let b4 := set_balances (insert cheaterAddr (nsub balance stakeAmount)) b3 in
  let totalBonded := getTotalStake b4 in
  set_balances (λ bal, map_fold (reward stakeAmount totalBonded) bal (stakeBalances b4)) b4.

Section StakeBlockWithUtils.
Context `{Utils}.

(** [punishCheater(msg1, msg2, client)]: both messages are rebuilt as
    proposals when the first has a [block], as votes otherwise. *)
Definition punishCheater (msg1 msg2 : Msg.t) (b : StakeBlock) : StakeBlock :=
  match Msg.block msg1 with
  | Some _ =>
      let p1 := Proposal.new msg1 in
      let p2 := Proposal.new msg2 in
      if bool_decide (Proposal.id p1 ≠ Proposal.id p2)
         && bool_decide (Proposal.from p1 = Proposal.from p2)
         && bool_decide (Proposal.height p1 = Proposal.height p2)
         && bool_decide (Proposal.round p1 = Proposal.round p2)
         && Proposal.hasValidSignature p1 && Proposal.hasValidSignature p2
      then slash (Proposal.from p1) b
      else b
  | None =>
      let v1 := Vote.new msg1 in
      let v2 := Vote.new msg2 in
      if bool_decide (Vote.id v1 ≠ Vote.id v2)
         && bool_decide (Vote.from v1 = Vote.from v2)
         && bool_decide (Vote.height v1 = Vote.height v2)
         && bool_decide (Vote.round v1 = Vote.round v2)
         && Vote.hasValidSignature v1 && Vote.hasValidSignature v2
      then slash (Vote.from v1) b
      else b
  end.

(** [addTransaction(tx, client)].  [super.addTransaction], of
    spartan-gold's [Block], is external: it gives the block after the
    transfer of gold, or nothing when it returns false. *)
Definition addTransaction (superAddTransaction : Tx.t → StakeBlock → option StakeBlock)
    (tx : Tx.t) (b : StakeBlock) : Result (bool * StakeBlock) :=
  match superAddTransaction tx b with
  | None => Returns (false, b)
  | Some b' =>
      match Tx.data tx with
      | NoData => Returns (true, b')
      | STAKE amountStaked => Returns (true, stakeGold (Tx.from tx) amountStaked b')
      | UNSTAKE amountToUnstake =>
          Returns (true, unstakeGold (Tx.from tx) amountToUnstake b')
      | EVIDENCE _ msg1 msg2 => Returns (true, punishCheater msg1 msg2 b')
      | OtherData _ => Throws
      end
  end.
End StakeBlockWithUtils.

(** ** Plain objects used as dictionaries *)

(** [o[k]] *)
Fixpoint objGet {A} (o : list (string * A)) (k : string) : option A :=
  match o with
  | [] => None
  | (k', v) :: o' => if decide (k' = k) then Some v else objGet o' k
  end.

(** [o[k] = v]: an existing key keeps its place, a new key goes last. *)
Fixpoint objSet {A} (o : list (string * A)) (k : string) (v : A) : list (string * A) :=
  match o with
  | [] => [(k, v)]
  | (k', v') :: o' => if decide (k' = k) then (k, v) :: o' else (k', v') :: objSet o' k v
  end.

(** ** The consensus [Validator] and stake-mixin.js *)

(** The state of a client or validator that the staking layer reads and
    writes.  [superAvailableGold] is [availableGold] of spartan-gold's
    [Client]; [net] is what was broadcast, latest last; [transactions] is
    the set of queued transactions of a validator, and [None] for a client,
    which has no [addTransaction]; [roundAccumPower] is the copy of
    [accumPower] that a validator updates every round. *)
Module Node.
Record t : Type := mk {
  address : string;
  keyPair_public : string;
  keyPair_private : string;
  nonce : Z;
  superAvailableGold : num;
  lastConfirmedBlock : StakeBlock;
  pendingOutgoingTransactions : gmap string Tx.t;
  net : list (string * Tx.t);
  transactions : option (list Tx.t);
  height : Z;
  round : Z;
  currentBlock : StakeBlock;
  roundAccumPower : gmap string num
}.
End Node.

(** [currentVotes > votesNeeded] with [votesNeeded = 2 * totalStake / 3].
    The quotient is the only number of [countVotes] that need not be an
    integer; for integers, [c > 2 * t / 3] is [2 * t < 3 * c]. *)
Definition gtVotesNeeded (currentVotes totalStake : num) : bool :=
  match currentVotes, totalStake with
  | Int c, Int t => 2 * t <? 3 * c
  | _, _ => ngt currentVotes totalStake
  end.

Section NodeWithUtils.
Context `{Utils}.

(** [amountGoldStaked()] of the mixin *)
Definition node_amountGoldStaked (this : Node.t) : num :=
  amountGoldStaked (Node.lastConfirmedBlock this) (Node.address this).

(** [get availableGold()] *)
Definition availableGold (this : Node.t) : num :=
  nsub (Node.superAvailableGold this) (node_amountGoldStaked this).

(** [this.addTransaction(tx)] of a validator, which adds [tx] to the set
    [this.transactions]; a client has no [addTransaction] and the mixin
    then skips the call. *)
Definition queueTransaction (tx : Tx.t) (txs : option (list Tx.t)) : option (list Tx.t) :=
  (λ set, set ++ [tx]) <$> txs.

(** What [postStakingTransaction], [postUnstakingTransaction] and
    [postEvidenceTransaction] do once they have passed their checks: make
    the transaction, sign it, record it as pending, increment the nonce,
    broadcast it and, for a validator, queue it for the next block. *)
Definition post (fee : Z) (data : TxData) (this : Node.t) : Tx.t * Node.t :=
  let tx := Tx.signed (Node.keyPair_private this)
    {| Tx.from := Node.address this; Tx.nonce := Node.nonce this;
       Tx.pubKey := Node.keyPair_public this; Tx.sig := None;
       Tx.outputs := []; Tx.fee := fee; Tx.data := data |} in
  (tx,
   {| Node.address := Node.address this;
      Node.keyPair_public := Node.keyPair_public this;
      Node.keyPair_private := Node.keyPair_private this;
      Node.nonce := Node.nonce this + 1;
      Node.superAvailableGold := Node.superAvailableGold this;
      Node.lastConfirmedBlock := Node.lastConfirmedBlock this;
      Node.pendingOutgoingTransactions :=
        <[Tx.id tx := tx]> (Node.pendingOutgoingTransactions this);
      Node.net := Node.net this ++ [(POST_TRANSACTION, tx)];
      Node.transactions := queueTransaction tx (Node.transactions this);
      Node.height := Node.height this;
      Node.round := Node.round this;
      Node.currentBlock := Node.currentBlock this;
      Node.roundAccumPower := Node.roundAccumPower this |}).

(** [postStakingTransaction(stakeAmount, fee)] *)
Definition postStakingTransaction (stakeAmount fee : Z) (this : Node.t)
    : Result (Tx.t * Node.t) :=
  let totalPayments := stakeAmount + fee in
  if ngt (Int totalPayments) (availableGold this) then Throws
  else Returns (post fee (STAKE stakeAmount) this).

(** [postUnstakingTransaction(amountToUnstake, fee)] *)
Definition postUnstakingTransaction (amountToUnstake fee : Z) (this : Node.t)
    : Result (Tx.t * Node.t) :=
  if ngt (Int fee) (availableGold this) then Throws
  else Returns (post fee (UNSTAKE amountToUnstake) this).

(** [postEvidenceTransaction(faultyAddr, oldMessage, newMessage)] *)
Definition postEvidenceTransaction (faultyAddr : string) (oldMessage newMessage : Msg.t)
    (this : Node.t) : Tx.t * Node.t :=
  post 0 (EVIDENCE faultyAddr oldMessage newMessage) this.

(** [verifyAndVote(vote, ballotBox)]: the validator and the ballot box
    after the call. *)
Definition verifyAndVote (vote : Msg.t) (ballotBox : list (string * Vote.t))
    (this : Node.t) : Node.t * list (string * Vote.t) :=
  let vote := Vote.new vote in
  if negb (Vote.isValid (Node.height this) (Node.round this) vote) then (this, ballotBox)
  else
    match objGet ballotBox (Vote.from vote) with
    | Some currentVote =>
        if Vote.fresherThan vote currentVote then
          (this, objSet ballotBox (Vote.from vote) vote)
        else if Vote.fresherThan currentVote vote then (this, ballotBox)
        else if bool_decide (Vote.id currentVote = Vote.id vote) then (this, ballotBox)
        else
          let this' :=
            (postEvidenceTransaction (Vote.from vote)
               (Vote.toMsg currentVote) (Vote.toMsg vote) this).2 in
          (this', objSet ballotBox (Vote.from vote) vote)
    | None => (this, objSet ballotBox (Vote.from vote) vote)
    end.
End NodeWithUtils.

(** [updateRoundAccumPower(proposerAddr)] *)
Definition updateRoundAccumPower (proposerAddr : string) (this : Node.t) : Node.t :=
  {| Node.address := Node.address this;
     Node.keyPair_public := Node.keyPair_public this;
     Node.keyPair_private := Node.keyPair_private this;
     Node.nonce := Node.nonce this;
     Node.superAvailableGold := Node.superAvailableGold this;
     Node.lastConfirmedBlock := Node.lastConfirmedBlock this;
     Node.pendingOutgoingTransactions := Node.pendingOutgoingTransactions this;
     Node.net := Node.net this;
     Node.transactions := Node.transactions this;
     Node.height := Node.height this;
     Node.round := Node.round this;
     Node.currentBlock := Node.currentBlock this;
     Node.roundAccumPower :=
       updatePower (stakeBalances (Node.currentBlock this)) (Node.roundAccumPower this)
         proposerAddr |}.

(** One iteration of the [forEach] of [countVotes]: the state is
    [candidateBlocks] and [winningBlockID]. *)
Definition countVote (this : Node.t) (totalStake : num)
    (st : gmap string num * option string) (entry : string * Vote.t)
    : gmap string num * option string :=
  let voterAddr := entry.1 in
  let stake := amountGoldStaked (Node.currentBlock this) voterAddr in
  let vote := entry.2 in
  if Vote.isStale vote (Node.height this) (Node.round this) then st
  else
    let blockID := Vote.blockID vote in
    let currentVotes := nadd (orZero (st.1 !! blockID)) stake in
    let candidateBlocks := <[blockID := currentVotes]> st.1 in
    if gtVotesNeeded currentVotes totalStake then
      (candidateBlocks,
       Some (if bool_decide (blockID = NIL) then NIL else Vote.blockID vote))
    else (candidateBlocks, st.2).

(** [countVotes(ballotBox)]; [None] is [undefined]. *)
Definition countVotes (this : Node.t) (ballotBox : list (string * Vote.t)) : option string :=
  let totalStake := getTotalStake (Node.currentBlock this) in
  (foldl (countVote this totalStake) (∅, None) ballotBox).2.

(** ** Example data *)

(** A host platform on which the model runs: the hash is the identity, a
    key pair is one string used as public and private key and as address,
    and a signature is the key followed by the signed text. *)
Definition demoData (data : TxData) : string :=
  match data with
  | NoData => ""
  | STAKE amountStaked => "STAKE " +:+ pretty amountStaked
  | UNSTAKE amountToUnstake => "UNSTAKE " +:+ pretty amountToUnstake
  | EVIDENCE byzantinePlayer _ _ => "EVIDENCE " +:+ byzantinePlayer
  | OtherData type => type
  end.

Definition demoUtils : Utils := {|
  hash s := s;
  sign privKey msg := privKey +:+ "/" +:+ msg;
  verifySignature pubKey msg sig := bool_decide (sig = pubKey +:+ "/" +:+ msg);
  addressMatchesKey addr pubKey := bool_decide (addr = pubKey);
  stringifyVote from height round type blockID pubKey :=
    from +:+ "," +:+ pretty height +:+ "," +:+ pretty round +:+ ","
      +:+ default "" type +:+ "," +:+ blockID +:+ "," +:+ pubKey;
  stringifyProposal from blockID block height round pubKey :=
    from +:+ "," +:+ blockID +:+ "," +:+ default "" block +:+ ","
      +:+ pretty height +:+ "," +:+ pretty round +:+ "," +:+ pubKey;
  stringifyTx from nonce pubKey outputs fee data :=
    from +:+ "," +:+ pretty nonce +:+ "," +:+ pubKey +:+ "," +:+ pretty fee
      +:+ "," +:+ demoData data
|}.

(** A vote of [voter] for [blockID], signed, as [Vote.makeVote] makes it,
    and the message that carries it. *)
Definition demoVote (voter : string) (height round : Z) (type blockID : string) : Vote.t :=
  let vote :=
    {| Vote.from := voter; Vote.height := height; Vote.round := round;
       Vote.type := Some type; Vote.blockID := blockID; Vote.pubKey := voter;
       Vote.sig := None |} in
  {| Vote.from := voter; Vote.height := height; Vote.round := round;
     Vote.type := Some type; Vote.blockID := blockID; Vote.pubKey := voter;
     Vote.sig := Some (@sign demoUtils voter (@Vote.id demoUtils vote)) |}.

Definition demoMsg (voter : string) (height round : Z) (type blockID : string) : Msg.t :=
  Vote.toMsg (demoVote voter height round type blockID).

(** A block of height 10 with three validators; alice has scheduled the
    release of 30 of her stake for height 40. *)
Definition demoBlock : StakeBlock := {|
  rewardAddr := "bob";
  chainLength := 10;
  balances := {[ "alice" := Int 1000; "bob" := Int 1000; "carol" := Int 1000 ]};
  stakeBalances := {[ "alice" := Int 100; "bob" := Int 50; "carol" := Int 50 ]};
  unstakingEvents := {[ inl 40 := [{| clientID := "alice"; amount := 30 |}] ]};
  accumPower := {[ "alice" := Int 100; "bob" := Int 50; "carol" := Int 50 ]}
|}.

(** A validator at height 10, round 1, on [demoBlock]. *)
Definition demoNode : Node.t := {|
  Node.address := "bob";
  Node.keyPair_public := "bob";
  Node.keyPair_private := "bob";
  Node.nonce := 0;
  Node.superAvailableGold := Int 1000;
  Node.lastConfirmedBlock := demoBlock;
  Node.pendingOutgoingTransactions := ∅;
  Node.net := [];
  Node.transactions := Some [];
  Node.height := 10;
  Node.round := 1;
  Node.currentBlock := demoBlock;
  Node.roundAccumPower := accumPower demoBlock
|}.

(** The block of height 40 after alice has been slashed in between: she has
    no stake any more, and her unstaking event is due. *)
Definition demoDueBlock : StakeBlock := {|
  rewardAddr := "bob";
  chainLength := 40;
  balances := {[ "alice" := Int 900; "bob" := Int 1025; "carol" := Int 1025 ]};
  stakeBalances := {[ "bob" := Int 50; "carol" := Int 50 ]};
  unstakingEvents := {[ inl 40 := [{| clientID := "alice"; amount := 30 |}] ]};
  accumPower := {[ "bob" := Int 50; "carol" := Int 50 ]}
|}.

(** A block in which mallory has staked 49, alice 1 and bob 48. *)
Definition demoShareBlock : StakeBlock := {|
  rewardAddr := "bob";
  chainLength := 10;
  balances := {[ "mallory" := Int 1000; "alice" := Int 1000; "bob" := Int 1000 ]};
  stakeBalances := {[ "mallory" := Int 49; "alice" := Int 1; "bob" := Int 48 ]};
  unstakingEvents := ∅;
  accumPower := {[ "mallory" := Int 49; "alice" := Int 1; "bob" := Int 48 ]}
|}.

(** A validator on a block on which bob, with a stake of 5, has had 9
    released: [unstakeGold] and [handleUnstakingEvents] compare no amount
    with the stake. *)
Definition demoOverdrawnNode : Node.t := {|
  Node.address := "carol";
  Node.keyPair_public := "carol";
  Node.keyPair_private := "carol";
  Node.nonce := 0;
  Node.superAvailableGold := Int 1000;
  Node.lastConfirmedBlock := demoBlock;
  Node.pendingOutgoingTransactions := ∅;
  Node.net := [];
  Node.transactions := Some [];
  Node.height := 10;
  Node.round := 1;
  Node.currentBlock :=
    handleUnstakingEvents
      {| rewardAddr := "carol"; chainLength := 10;
         balances := ∅;
         stakeBalances := {[ "alice" := Int 10; "bob" := Int 5; "carol" := Int 3 ]};
         unstakingEvents := {[ inl 10 := [{| clientID := "bob"; amount := 9 |}] ]};
         accumPower := ∅ |};
  Node.roundAccumPower := ∅
|}.

(** Prevotes of alice and bob for the block X at height 10, round 1. *)
Definition demoBallotBox : list (string * Vote.t) :=
  [("alice", demoVote "alice" 10 1 PREVOTE "X"); ("bob", demoVote "bob" 10 1 PREVOTE "X")].

(** ** Notions used to state the properties *)

(** The stake that [countVotes] has to find behind a block: the sum of the
    stakes of the voters whose vote in the ballot box is not stale and is
    for [blockID]. *)
Definition tally (this : Node.t) (ballotBox : list (string * Vote.t)) (blockID : string)
    : num :=
  foldr (λ entry votes,
           if Vote.isStale entry.2 (Node.height this) (Node.round this) then votes
           else if bool_decide (Vote.blockID entry.2 = blockID)
           then nadd (amountGoldStaked (Node.currentBlock this) entry.1) votes
           else votes)
        (Int 0) ballotBox.

(** The integer that a number is, 0 for an infinity and NaN. *)
Definition toZ (x : num) : Z := match x with Int z => z | _ => 0 end.

(** The total stake in the words of the specification: the sum of all the
    stake balances of a block, as an integer.  It is stated apart from
    [getTotalStake], which is compared with it. *)
Definition stakeSum (stakeBalances : gmap string num) : Z :=
  foldr (λ entry total, toZ entry.2 + total) 0 (map_to_list stakeBalances).

Definition isNonneg (x : num) : bool :=
  match x with Int z => 0 <=? z | _ => false end.

(** Maps all of whose values are non-negative integers, as the data model
    has [stakeBalances]. *)
Definition nonnegValued (m : gmap string num) : Prop :=
  map_Forall (λ _ v, isNonneg v = true) m.

#[global] Instance nonnegValued_dec m : Decision (nonnegValued m).
Proof. unfold nonnegValued. apply _. Defined.

(** The same in [Z], voter by voter: the stake of a voter, the stake that
    one entry of the ballot box puts behind [blockID], and their sum. *)
Definition stakeOf (this : Node.t) (a : string) : Z :=
  toZ (amountGoldStaked (Node.currentBlock this) a).

Definition votesFor (this : Node.t) (entry : string * Vote.t) (blockID : string) : Z :=
  if Vote.isStale entry.2 (Node.height this) (Node.round this) then 0
  else if bool_decide (Vote.blockID entry.2 = blockID) then stakeOf this entry.1 else 0.

Definition tallyZ (this : Node.t) (ballotBox : list (string * Vote.t)) (blockID : string)
    : Z :=
  foldr (λ entry votes, votesFor this entry blockID + votes) 0 ballotBox.

(** The invariant of the loop of [countVotes], for tallies [t] so far: the
    winner recorded is a block whose tally exceeds the votes needed, and
    none is recorded only while no tally does. *)
Definition winnerOK (totalStake : Z) (t : string → Z) (winningBlockID : option string)
    : Prop :=
  match winningBlockID with
  | Some w => 2 * totalStake < 3 * t w
  | None => ∀ blockID, ¬ 2 * totalStake < 3 * t blockID
  end.

(** A chain of [n] blocks without transactions on top of [b]. *)
Definition descendant (n : nat) (b : StakeBlock) : StakeBlock :=
  Nat.iter n (λ prevBlock, newStakeBlock (rewardAddr prevBlock) prevBlock) b.

(** Maps all of whose values are integers, as the data model has them. *)
Definition intValued (m : gmap string num) : Prop :=
  map_Forall (λ _ v, isInt v = true) m.

#[global] Instance intValued_dec m : Decision (intValued m).
Proof. unfold intValued. apply _. Defined.

(** ** Further functions of the sources *)

(** [Vote.sign(privKey)]: the signature of the id is stored in the vote. *)
Definition signVote `{Utils} (privKey : string) (v : Vote.t) : Vote.t :=
  {| Vote.from := Vote.from v; Vote.height := Vote.height v; Vote.round := Vote.round v;
     Vote.type := Vote.type v; Vote.blockID := Vote.blockID v; Vote.pubKey := Vote.pubKey v;
     Vote.sig := Some (sign privKey (Vote.id v)) |}.

(** [Vote.makeVote(voter, type, blockID)]: [new Vote(voter)] takes the height
    and the round of the voter, the other fields are set, and the vote is
    signed with the private key of the voter. *)
Definition makeVote `{Utils} (voter : Node.t) (type : string) (blockID : string) : Vote.t :=
  signVote (Node.keyPair_private voter)
    {| Vote.from := Node.address voter; Vote.height := Node.height voter;
       Vote.round := Node.round voter; Vote.type := Some type; Vote.blockID := blockID;
       Vote.pubKey := Node.keyPair_public voter; Vote.sig := None |}.

(** [Vote.makeNilVote(voter, type)] *)
Definition makeNilVote `{Utils} (voter : Node.t) (type : string) : Vote.t :=
  makeVote voter type NIL.

(** The [forEach] of [determineProposer]: [entries] are the entries of
    [this.roundAccumPower] in the order of the [Map], and the state is
    [this.currentProposer] ([None] while it is [undefined]) and
    [proposerPower]. *)
Definition pickProposer (entries : list (string * num)) (currentProposer : option string)
    : option string * num :=
  foldl (λ st entry, if ngt entry.2 st.2 then (Some entry.1, entry.2) else st)
        (currentProposer, Int 0) entries.

(** The [forEach] of [newRound] that counts the commits of earlier rounds
    as votes of the new round: [ballotBox] is [this.prevotes] or
    [this.precommits]. *)
Definition carryOver (commits ballotBox : list (string * Vote.t)) : list (string * Vote.t) :=
  foldl (λ box entry, objSet box entry.1 entry.2) ballotBox commits.

(** The configuration of the genesis block, as far as [makeGenesis] of
    [StakeBlockchain] reads it: [startingStake] is an object from addresses
    to stakes, [startingStakeMap] a [Map] from clients to stakes, of which
    the address of the client is used; [None] is [undefined]. *)
Record GenesisCfg : Type := {
  startingStake : option (list (string * num));
  startingStakeMap : option (list (string * num))
}.

(** The last [forEach] of [makeGenesis]: stake and accumulated power of each
    address are set to its starting stake. *)
Definition initStake (startingStake : list (string * num)) (genesis : StakeBlock)
    : StakeBlock :=
  foldl (λ g entry,
           set_accumPower (insert entry.1 entry.2)
             (set_stakeBalances (insert entry.1 entry.2) g))
        genesis startingStake.

(** [StakeBlockchain.makeGenesis(cfg)]; [genesis] is the block that
    [Blockchain.makeGenesis(cfg)] of spartan-gold returns. *)
Definition makeGenesis (cfg : GenesisCfg) (genesis : StakeBlock) : Result StakeBlock :=
  match startingStake cfg, startingStakeMap cfg with
  | None, None => Throws
  | Some _, Some _ => Throws
  | Some stake, None => Returns (initStake stake genesis)
  | None, Some stakeMap =>
      Returns (initStake (foldl (λ o entry, objSet o entry.1 entry.2) [] stakeMap) genesis)
  end.

(** [demoBlock] 30 heights later, before the unstaking event of alice, which
    is due, is handled. *)
Definition demoReleaseBlock : StakeBlock := {|
  rewardAddr := "bob";
  chainLength := 40;
  balances := balances demoBlock;
  stakeBalances := stakeBalances demoBlock;
  unstakingEvents := unstakingEvents demoBlock;
  accumPower := accumPower demoBlock
|}.

(** The rounds of one height, one call of [determineProposer] after the
    other: [proposers] are the proposers that the rounds pick, and each
    round updates the accumulated power of the round for its proposer. *)
Definition updateRounds (proposers : list string) (this : Node.t) : Node.t :=
  foldl (λ this proposerAddr, updateRoundAccumPower proposerAddr this) this proposers.

(** The loop of [proposeBlock] over the queued transactions:
    [this.currentBlock.addTransaction(tx, this)] for each of them in order,
    whatever it returns; an exception of [addTransaction] ends the loop and
    [proposeBlock]. *)
Definition addTransactions `{Utils}
    (superAddTransaction : Tx.t → StakeBlock → option StakeBlock)
    (transactions : list Tx.t) (currentBlock : StakeBlock) : Result StakeBlock :=
  foldl (λ current tx,
           match current with
           | Returns b =>
               match addTransaction superAddTransaction tx b with
               | Returns (_, b') => Returns b'
               | Throws => Throws
               end
           | Throws => Throws
           end)
        (Returns currentBlock) transactions.

(** The block that [proposeBlock] shares: [StakeBlockchain.makeBlock], of
    spartan-gold, constructs a [StakeBlock] for the proposer on
    [lastBlock]; the queued transactions are added to it, and then the
    accumulated power is updated for the proposer. *)
Definition proposeBlock `{Utils}
    (superAddTransaction : Tx.t → StakeBlock → option StakeBlock)
    (address : string) (transactions : list Tx.t) (lastBlock : StakeBlock)
    : Result StakeBlock :=
  match addTransactions superAddTransaction transactions (newStakeBlock address lastBlock) with
  | Returns currentBlock => Returns (updateAccumPower address currentBlock)
  | Throws => Throws
  end.

(** [rerun(prevBlock)]: the three maps are copied from [prevBlock], the
    accumulated power is updated for the address of the reward, the
    unstaking events are handled, and the block is handed to [super.rerun],
    of spartan-gold's [Block], which is external and gives the result. *)
Definition rerun {A} (superRerun : StakeBlock → StakeBlock → A)
    (prevBlock this : StakeBlock) : A :=
  superRerun prevBlock
    (handleUnstakingEvents
       (updateAccumPower (rewardAddr this)
          {| rewardAddr := rewardAddr this; chainLength := chainLength this;
             balances := balances this; stakeBalances := stakeBalances prevBlock;
             unstakingEvents := unstakingEvents prevBlock;
             accumPower := accumPower prevBlock |})).

(** What a step of the round does besides changing the state: it
    broadcasts a vote on a channel, or sets a timer for a method of the
    validator, with the delay in milliseconds. *)
Inductive Effect : Type :=
  | Broadcast (channel : string) (vote : Vote.t)
  | SetTimeout (callback : string) (delay : Z).

(** The state of a validator in a round, besides that of the node: the
    three ballot boxes, the blocks received with proposals by their ids,
    the block the validator is locked on and the block it commits to
    ([None] is [undefined]). *)
Record Engine : Type := {
  node : Node.t;
  prevotes : list (string * Vote.t);
  precommits : list (string * Vote.t);
  commits : list (string * Vote.t);
  proposedBlocks : list (string * StakeBlock);
  lockedBlock : option StakeBlock;
  nextBlock : option StakeBlock
}.


(** [commitDecision()], with [commit(winningBlockID)] in its last case. *)
Definition commitDecision `{Utils} (DELTA : Z) (e : Engine) : Engine * list Effect :=
  let winningBlockID := countVotes (node e) (precommits e) in
  match winningBlockID with
  | None =>
      ({| node := node e; prevotes := prevotes e; precommits := []; commits := commits e;
          proposedBlocks := proposedBlocks e; lockedBlock := lockedBlock e;
          nextBlock := nextBlock e |},
       [SetTimeout "newRound" 0])
  | Some w =>
      if bool_decide (w = NIL) then
        ({| node := node e; prevotes := prevotes e; precommits := [];
            commits := commits e; proposedBlocks := proposedBlocks e;
            lockedBlock := lockedBlock e; nextBlock := nextBlock e |},
         [SetTimeout "newRound" 0])
      else
        ({| node := node e; prevotes := prevotes e; precommits := [];
            commits := commits e; proposedBlocks := proposedBlocks e;
            lockedBlock := lockedBlock e; nextBlock := objGet (proposedBlocks e) w |},
         [Broadcast COMMIT (makeVote (node e) COMMIT w);
          SetTimeout "finalizeCommit" (Node.round (node e) * DELTA)])
  end.

(** ** Further notions used to state the properties *)

(** The amounts of a queue of unstaking events. *)
Definition releasedAmount (q : list UnstakeEvent) : Z :=
  foldr (λ ev total, amount ev + total) 0 q.

(** Every pending unstaking event is queued under a height, and that height
    is above the height of the block. *)
Definition pendingAhead (b : StakeBlock) : Prop :=
  map_Forall (λ k _, match k with inl h => chainLength b < h | inr _ => False end)
             (unstakingEvents b).

#[global] Instance pendingAhead_dec b : Decision (pendingAhead b).
Proof.
  unfold pendingAhead. apply map_Forall_dec. intros [h|a] _; apply _.
Defined.

(** A ballot box in which every vote is filed under its sender and is valid
    for a validator at the given height and round. *)
Definition wellFiled `{Utils} (height round : Z) (ballotBox : list (string * Vote.t)) : Prop :=
  Forall (λ entry, Vote.from entry.2 = entry.1 ∧ Vote.isValid height round entry.2 = true)
         ballotBox.

(** * Properties *)

(** ** Arithmetic of [num] *)

Lemma nadd_comm x y : nadd x y = nadd y x.
Proof.
  destruct x as [a|[]|], y as [b|[]|]; simpl; try reflexivity.
  f_equal; lia.
Qed.

Lemma nadd_assoc x y z : nadd (nadd x y) z = nadd x (nadd y z).
Proof.
  destruct x as [a|[]|], y as [b|[]|], z as [c|[]|]; simpl; try reflexivity.
  f_equal; lia.
Qed.

Lemma nadd_swap_acc acc x y : nadd (nadd acc x) y = nadd (nadd acc y) x.
Proof. rewrite !nadd_assoc. f_equal. apply nadd_comm. Qed.

(** ** Sums over maps *)

Lemma sumValues_empty : sumValues ∅ = Int 0.
Proof. apply map_fold_empty. Qed.

Lemma sumValues_insert_fresh m a v :
  m !! a = None → sumValues (<[a:=v]> m) = nadd (sumValues m) v.
Proof.
  intros Hm. unfold sumValues.
  rewrite map_fold_insert_L; [done| |done].
  intros. apply nadd_swap_acc.
Qed.

Lemma sumValues_delete m a v :
  m !! a = Some v → sumValues m = nadd (sumValues (delete a m)) v.
Proof.
  intros Hm. rewrite <-(insert_delete_id m a v) at 1 by done.
  apply sumValues_insert_fresh, lookup_delete_eq.
Qed.

Lemma intValued_delete m a : intValued m → intValued (delete a m).
Proof. intros H. by apply map_Forall_delete. Qed.

Lemma intValued_insert m a z : intValued m → intValued (<[a:=Int z]> m).
Proof. intros H. by apply map_Forall_insert_2. Qed.

Lemma intValued_lookup m a v : intValued m → m !! a = Some v → ∃ z, v = Int z.
Proof.
  intros H Ha. specialize (H a v Ha). simpl in H.
  destruct v; try discriminate. eauto.
Qed.

Lemma sumValues_int m : intValued m → ∃ z, sumValues m = Int z.
Proof.
  induction m as [|a v m Hm IH] using map_ind; intros H.
  - exists 0. apply sumValues_empty.
  - rewrite sumValues_insert_fresh by done.
    apply map_Forall_insert in H as [Hv H]; [|done].
    destruct (IH H) as [z ->]. destruct v; try discriminate. eauto.
Qed.

Lemma sumValues_insert_int m a z :
  intValued m →
  ∃ s old, sumValues m = Int s ∧ orZero (m !! a) = Int old ∧
           sumValues (<[a:=Int z]> m) = Int (s - old + z).
Proof.
  intros H. destruct (m !! a) as [v|] eqn:Ha.
  - destruct (intValued_lookup _ _ _ H Ha) as [old ->].
    destruct (sumValues_int _ (intValued_delete _ a H)) as [s' Hs'].
    exists (s' + old), old. split; [|split; [done|]].
    + by rewrite (sumValues_delete _ _ _ Ha), Hs'.
    + rewrite <-insert_delete_eq, sumValues_insert_fresh by apply lookup_delete_eq.
      rewrite Hs'. simpl. f_equal. lia.
  - destruct (sumValues_int _ H) as [s Hs]. exists s, 0.
    split; [done|split; [done|]].
    rewrite sumValues_insert_fresh, Hs by done. simpl. f_equal. lia.
Qed.

(** ** [updateAccumPower] *)

(** What the [forEach] of [updateAccumPower] leaves behind: every bonded
    address has its stake added to its power (0 when it had none), the other
    entries are as they were, and [totalBonded] is the sum of the stakes. *)
Lemma accumulate_fold stake power :
  (∀ a, (map_fold accumulate (power, Int 0) stake).1 !! a =
        match stake !! a with
        | Some s => Some (nadd (orZero (power !! a)) s)
        | None => power !! a
        end) ∧
  (map_fold accumulate (power, Int 0) stake).2 = sumValues stake.
Proof.
  induction stake as [|i x m Hm Hfst [IH1 IH2]] using map_first_key_ind.
  - rewrite map_fold_empty, sumValues_empty. split; [|done].
    intros a. by rewrite lookup_empty.
  - rewrite map_fold_insert_first_key by done.
    rewrite sumValues_insert_fresh by done. unfold accumulate at 1 3. simpl.
    split; [|by rewrite IH2].
    intros a. destruct (decide (i = a)) as [->|Hne].
    + rewrite !lookup_insert_eq. by rewrite IH1, Hm.
    + rewrite !lookup_insert_ne by done. apply IH1.
Qed.

Lemma accumulate_fold_int stake power :
  intValued stake → intValued power →
  ∃ p s, sumValues power = Int p ∧ sumValues stake = Int s ∧
         intValued (map_fold accumulate (power, Int 0) stake).1 ∧
         sumValues (map_fold accumulate (power, Int 0) stake).1 = Int (p + s).
Proof.
  intros Hstake Hpower.
  destruct (sumValues_int _ Hpower) as [p Hp]. exists p.
  induction stake as [|i x m Hm Hfst IH] using map_first_key_ind.
  - exists 0. rewrite map_fold_empty, sumValues_empty. simpl.
    repeat split; try done. rewrite Hp. f_equal. lia.
  - apply map_Forall_insert in Hstake as [Hx Hstake]; [|done].
    destruct (IH Hstake) as (s & _ & Hs & Hint & Hsum).
    destruct x as [z| |]; try discriminate.
    exists (s + z). split; [done|].
    rewrite sumValues_insert_fresh, Hs by done. split; [done|].
    rewrite map_fold_insert_first_key by done.
    unfold accumulate at 1 3. simpl.
    destruct (sumValues_insert_int _ i 0 Hint) as (s1 & old & Hs1 & Hold & _).
    rewrite Hold. simpl.
    destruct (sumValues_insert_int _ i (old + z) Hint) as (s2 & old2 & Hs2 & Hold2 & ->).
    split; [by apply intValued_insert|].
    rewrite Hsum in Hs2. rewrite Hold in Hold2.
    injection Hs2 as <-. injection Hold2 as <-. f_equal. lia.
Qed.

(** The body that [updateAccumPower] and [updateRoundAccumPower] share. *)
Lemma updatePower_spec (stake power : gmap string num) (proposerAddr : string) :
  let bumped a :=
    match stake !! a with
    | Some s => Some (nadd (orZero (power !! a)) s)
    | None => power !! a
    end in
  (∀ a, updatePower stake power proposerAddr !! a =
        if decide (a = proposerAddr)
        then Some (nsub (toNumber (bumped a)) (sumValues stake))
        else bumped a)
  ∧ (intValued stake → intValued power →
     is_Some (power !! proposerAddr) ∨ is_Some (stake !! proposerAddr) →
     sumValues (updatePower stake power proposerAddr) = sumValues power).
Proof.
  intros bumped. unfold updatePower.
  destruct (accumulate_fold stake power) as [Hlook Htot].
  pose proof (accumulate_fold_int stake power) as Hint.
  destruct (map_fold accumulate (power, Int 0) stake) as [power1 totalBonded].
  simpl in *. subst totalBonded. split.
  - intros a. destruct (decide (a = proposerAddr)) as [->|Hne].
    + by rewrite lookup_insert_eq, Hlook.
    + rewrite lookup_insert_ne by done. apply Hlook.
  - intros Hstake Hpower Hprop.
    destruct (Hint Hstake Hpower) as (p & s & Hp & Hs & Hint1 & Hsum).
    assert (∃ c, power1 !! proposerAddr = Some (Int c)) as [c Hc].
    { assert (is_Some (power1 !! proposerAddr)) as [v Hv].
      { rewrite Hlook. destruct (stake !! proposerAddr); [eauto|].
        destruct Hprop as [?|[? ?]]; [done|discriminate]. }
      destruct (intValued_lookup _ _ _ Hint1 Hv) as [c ->]. eauto. }
    rewrite Hc, Hs, Hp. simpl.
    destruct (sumValues_insert_int _ proposerAddr (c + - s) Hint1)
      as (s2 & old & Hs2 & Hold & ->).
    rewrite Hsum in Hs2. rewrite Hc in Hold. simpl in Hold.
    injection Hs2 as <-. injection Hold as <-. f_equal. lia.
Qed.

(** C2. One call of [updateAccumPower] adds to the power of every bonded
    validator its stake and then takes the total bonded stake from the
    power of the proposer; when the stakes and powers are integers and the
    proposer has an [accumPower] entry or bonded stake, the sum of
    [accumPower] is what it was before the call. *)
Theorem updateAccumPower_preserves_total (b : StakeBlock) (proposerAddr : string) :
  intValued (stakeBalances b) →
  intValued (accumPower b) →
  is_Some (accumPower b !! proposerAddr) ∨ is_Some (stakeBalances b !! proposerAddr) →
  let bumped a :=
    match stakeBalances b !! a with
    | Some s => Some (nadd (orZero (accumPower b !! a)) s)
    | None => accumPower b !! a
    end in
  (∀ a, accumPower (updateAccumPower proposerAddr b) !! a =
        if decide (a = proposerAddr)
        then Some (nsub (toNumber (bumped a)) (getTotalStake b))
        else bumped a) ∧
  stakeBalances (updateAccumPower proposerAddr b) = stakeBalances b ∧
  sumValues (accumPower (updateAccumPower proposerAddr b)) = sumValues (accumPower b).
Proof.
  intros Hstake Hpower Hprop bumped.
  destruct (updatePower_spec (stakeBalances b) (accumPower b) proposerAddr) as [Hlook Hsum].
  split; [exact Hlook|]. split; [reflexivity|]. by apply Hsum.
Qed.

(** The same for the accumulated power of the round. *)
Lemma updateRoundAccumPower_preserves_total (this : Node.t) (proposerAddr : string) :
  intValued (stakeBalances (Node.currentBlock this)) →
  intValued (Node.roundAccumPower this) →
  is_Some (Node.roundAccumPower this !! proposerAddr)
  ∨ is_Some (stakeBalances (Node.currentBlock this) !! proposerAddr) →
  sumValues (Node.roundAccumPower (updateRoundAccumPower proposerAddr this))
  = sumValues (Node.roundAccumPower this).
Proof.
  intros Hstake Hpower Hprop.
  by apply (updatePower_spec (stakeBalances (Node.currentBlock this))).
Qed.

(** ** [Vote.isValid] *)

Lemma hasValidSignature_false_iff `{Utils} (v : Vote.t) :
  Vote.hasValidSignature v = false ↔
    Vote.sig v = None
    ∨ addressMatchesKey (Vote.from v) (Vote.pubKey v) = false
    ∨ ∃ s, Vote.sig v = Some s ∧ verifySignature (Vote.pubKey v) (Vote.id v) s = false.
Proof.
  unfold Vote.hasValidSignature.
  destruct (Vote.sig v) as [s|]; [|by intuition].
  destruct (addressMatchesKey (Vote.from v) (Vote.pubKey v)); simpl.
  - split.
    + intros Hv. right. right. eauto.
    + intros [?|[?|(s' & [= <-] & ?)]]; done.
  - by intuition.
Qed.

(** C6. [isValid] returns false exactly when the height of the vote is below
    that of the validator, or its round is below that of the validator and
    it is not a commit, or [hasValidSignature] fails; and
    [hasValidSignature] fails exactly when the signature is missing, the
    sender does not match the public key, or the signature does not verify.
    In every other case [isValid] returns true. *)
Theorem isValid_false_iff `{Utils} (validatorHeight validatorRound : Z) (v : Vote.t) :
  (Vote.isValid validatorHeight validatorRound v = false ↔
     Vote.height v < validatorHeight
     ∨ (Vote.round v < validatorRound ∧ Vote.type v ≠ Some COMMIT)
     ∨ Vote.hasValidSignature v = false)
  ∧ (Vote.isValid validatorHeight validatorRound v = true ↔
     ¬ (Vote.height v < validatorHeight
        ∨ (Vote.round v < validatorRound ∧ Vote.type v ≠ Some COMMIT)
        ∨ Vote.hasValidSignature v = false))
  ∧ (Vote.hasValidSignature v = false ↔
     Vote.sig v = None
     ∨ addressMatchesKey (Vote.from v) (Vote.pubKey v) = false
     ∨ ∃ s, Vote.sig v = Some s ∧ verifySignature (Vote.pubKey v) (Vote.id v) s = false).
Proof.
  assert (Vote.isValid validatorHeight validatorRound v = false ↔
     Vote.height v < validatorHeight
     ∨ (Vote.round v < validatorRound ∧ Vote.type v ≠ Some COMMIT)
     ∨ Vote.hasValidSignature v = false) as Hfalse.
  { unfold Vote.isValid.
    destruct (Z.gtb_spec validatorHeight (Vote.height v)) as [Hh|Hh]; [by intuition|].
    destruct (Z.gtb_spec validatorRound (Vote.round v)) as [Hr|Hr];
      case_bool_decide as Hty; simpl;
      destruct (Vote.hasValidSignature v); simpl; intuition (try done; try lia). }
  split; [done|]. split; [|apply hasValidSignature_false_iff].
  rewrite <-Hfalse. destruct (Vote.isValid _ _ _); intuition done.
Qed.

(** ** Ballot boxes *)

Lemma objSet_keys {A} (o : list (string * A)) k v :
  (objSet o k v).*1 = if bool_decide (k ∈ o.*1) then o.*1 else o.*1 ++ [k].
Proof.
  induction o as [|[k' v'] o IH]; [done|]. csimpl.
  destruct (decide (k' = k)) as [->|Hk]; csimpl.
  - by rewrite bool_decide_eq_true_2 by left.
  - rewrite IH. case_bool_decide as Hin.
    + by rewrite bool_decide_eq_true_2 by (by right).
    + rewrite bool_decide_eq_false_2; [done|].
      rewrite not_elem_of_cons. by split.
Qed.

Lemma objSet_NoDup {A} (o : list (string * A)) k v :
  NoDup o.*1 → NoDup (objSet o k v).*1.
Proof.
  intros Hnd. rewrite objSet_keys. case_bool_decide as Hin; [done|].
  apply NoDup_app. split; [done|]. split; [|apply NoDup_singleton].
  intros x Hx ->%list_elem_of_singleton. done.
Qed.

Lemma objGet_objSet {A} (o : list (string * A)) k v k' :
  objGet (objSet o k v) k' = if decide (k = k') then Some v else objGet o k'.
Proof.
  induction o as [|[k0 v0] o IH]; simpl.
  - done.
  - destruct (decide (k0 = k)) as [->|Hne]; simpl.
    + by destruct (decide (k = k')).
    + destruct (decide (k0 = k')) as [->|Hne']; [|done].
      by rewrite decide_False by done.
Qed.

Lemma fresherThan_asym (v c : Vote.t) :
  Vote.fresherThan v c = true → Vote.fresherThan c v = false.
Proof.
  unfold Vote.fresherThan.
  repeat match goal with
         | |- context [?a >? ?b] => destruct (Z.gtb_spec a b)
         | |- context [?a <? ?b] => destruct (Z.ltb_spec a b)
         end; try done; lia.
Qed.

Lemma fresherThan_same (v c : Vote.t) :
  Vote.height c = Vote.height v → Vote.round c = Vote.round v →
  Vote.fresherThan v c = false ∧ Vote.fresherThan c v = false.
Proof.
  unfold Vote.fresherThan. intros -> ->.
  repeat match goal with
         | |- context [?a >? ?b] => destruct (Z.gtb_spec a b)
         | |- context [?a <? ?b] => destruct (Z.ltb_spec a b)
         end; try done; lia.
Qed.

(** [fresherThan] is the lexicographic order on height and round. *)
Lemma fresherThan_iff (v c : Vote.t) :
  Vote.fresherThan v c = true ↔
    Vote.height c < Vote.height v
    ∨ (Vote.height c = Vote.height v ∧ Vote.round c < Vote.round v).
Proof.
  unfold Vote.fresherThan.
  repeat match goal with
         | |- context [?a >? ?b] => destruct (Z.gtb_spec a b)
         | |- context [?a <? ?b] => destruct (Z.ltb_spec a b)
         end; intuition (try done; try lia).
Qed.

(** C5. [verifyAndVote] keeps at most one vote for each validator in the
    ballot box.  For an incoming valid vote: with no entry for its sender
    it is stored; when it is fresher than the entry (a greater height, or
    the same height and a greater round) it replaces it; when the entry is
    fresher, or has the same id, it is dropped; and when both are for the
    same height and round with different ids, an evidence transaction
    naming the sender and both votes is posted (and the new vote stored). *)
Theorem verifyAndVote_cases `{Utils} (this : Node.t) (ballotBox : list (string * Vote.t))
    (m : Msg.t) :
  Vote.isValid (Node.height this) (Node.round this) (Vote.new m) = true →
  NoDup ballotBox.*1 →
  let vote := Vote.new m in
  let after := verifyAndVote m ballotBox this in
  NoDup after.2.*1 ∧
  (∀ v c, Vote.fresherThan v c = true ↔
          Vote.height c < Vote.height v
          ∨ (Vote.height c = Vote.height v ∧ Vote.round c < Vote.round v)) ∧
  match objGet ballotBox (Vote.from vote) with
  | None =>
      after = (this, objSet ballotBox (Vote.from vote) vote)
      ∧ objGet after.2 (Vote.from vote) = Some vote
  | Some currentVote =>
      (Vote.fresherThan vote currentVote = true →
         after = (this, objSet ballotBox (Vote.from vote) vote)
         ∧ objGet after.2 (Vote.from vote) = Some vote)
      ∧ (Vote.fresherThan currentVote vote = true → after = (this, ballotBox))
      ∧ (Vote.fresherThan vote currentVote = false →
         Vote.id currentVote = Vote.id vote → after = (this, ballotBox))
      ∧ (Vote.height currentVote = Vote.height vote →
         Vote.round currentVote = Vote.round vote →
         Vote.id currentVote ≠ Vote.id vote →
         ∃ tx, Tx.data tx =
                 EVIDENCE (Vote.from vote) (Vote.toMsg currentVote) (Vote.toMsg vote)
               ∧ Tx.from tx = Node.address this
               ∧ Node.net after.1 = Node.net this ++ [(POST_TRANSACTION, tx)]
               ∧ Node.pendingOutgoingTransactions after.1 !! Tx.id tx = Some tx
               ∧ Node.nonce after.1 = Node.nonce this + 1
               ∧ after.2 = objSet ballotBox (Vote.from vote) vote)
  end.
Proof.
  intros Hvalid Hnd vote after. subst after vote. unfold verifyAndVote.
  rewrite Hvalid. clear Hvalid. generalize (Vote.new m). intros vote. simpl.
  destruct (objGet ballotBox (Vote.from vote)) as [currentVote|] eqn:Hget.
  - split.
    { destruct (Vote.fresherThan vote currentVote); simpl; [by apply objSet_NoDup|].
      destruct (Vote.fresherThan currentVote vote); simpl; [done|].
      case_bool_decide; simpl; [done|by apply objSet_NoDup]. }
    split; [apply fresherThan_iff|].
    split; [|split; [|split]].
    + intros ->. simpl. split; [done|].
      rewrite objGet_objSet. by rewrite decide_True.
    + intros Hc. destruct (Vote.fresherThan vote currentVote) eqn:Hv.
      * apply fresherThan_asym in Hv. congruence.
      * by rewrite Hc.
    + intros -> Hid. destruct (Vote.fresherThan currentVote vote); [done|].
      by rewrite bool_decide_eq_true_2.
    + intros Hh Hr Hid. destruct (fresherThan_same _ _ Hh Hr) as [-> ->].
      rewrite bool_decide_eq_false_2 by done. simpl.
      exists (postEvidenceTransaction (Vote.from vote)
                (Vote.toMsg currentVote) (Vote.toMsg vote) this).1.
      split; [reflexivity|]. split; [reflexivity|].
      split; [reflexivity|]. split; [apply lookup_insert_eq|].
      split; reflexivity.
  - split; [by apply objSet_NoDup|]. split; [apply fresherThan_iff|].
    split; [done|]. simpl.
    rewrite objGet_objSet. by rewrite decide_True.
Qed.

(** ** [postUnstakingTransaction] *)

(** C10. [postUnstakingTransaction] throws exactly when the fee exceeds the
    available gold, whatever the amount to unstake; when the fee is
    affordable the unstaking transaction for that amount, however large, is
    made, signed, recorded as pending and broadcast, and the nonce is
    incremented. *)
Theorem postUnstakingTransaction_checks_fee_only `{Utils} (this : Node.t)
    (amountToUnstake fee : Z) :
  (postUnstakingTransaction amountToUnstake fee this = Throws ↔
     ngt (Int fee) (availableGold this) = true)
  ∧ ∀ gold, availableGold this = Int gold → fee ≤ gold →
      ∃ tx this',
        postUnstakingTransaction amountToUnstake fee this = Returns (tx, this')
        ∧ Tx.data tx = UNSTAKE amountToUnstake
        ∧ Tx.fee tx = fee
        ∧ Tx.from tx = Node.address this
        ∧ Tx.nonce tx = Node.nonce this
        ∧ (∃ unsigned, Tx.sig tx = Some (sign (Node.keyPair_private this) (Tx.id unsigned))
                       ∧ tx = Tx.signed (Node.keyPair_private this) unsigned)
        ∧ Node.nonce this' = Node.nonce this + 1
        ∧ Node.net this' = Node.net this ++ [(POST_TRANSACTION, tx)]
        ∧ Node.pendingOutgoingTransactions this' !! Tx.id tx = Some tx
        ∧ Node.transactions this' = (λ set, set ++ [tx]) <$> Node.transactions this.
Proof.
  split.
  { unfold postUnstakingTransaction. by destruct (ngt _ _). }
  intros gold Hgold Hfee.
  assert (ngt (Int fee) (availableGold this) = false) as Hgt.
  { rewrite Hgold. simpl. apply Z.ltb_ge. lia. }
  unfold postUnstakingTransaction. rewrite Hgt.
  exists (post fee (UNSTAKE amountToUnstake) this).1,
         (post fee (UNSTAKE amountToUnstake) this).2.
  split; [reflexivity|]. simpl.
  repeat (split; [reflexivity|]).
  split; [eexists; split; reflexivity|].
  repeat (split; [reflexivity|]).
  split; [apply lookup_insert_eq|reflexivity].
Qed.

(** [postStakingTransaction], for comparison, counts the amount: it throws
    when the amount and the fee together exceed the available gold. *)
Lemma postStakingTransaction_checks_amount `{Utils} (this : Node.t) (stakeAmount fee : Z) :
  postStakingTransaction stakeAmount fee this = Throws ↔
    ngt (Int (stakeAmount + fee)) (availableGold this) = true.
Proof. unfold postStakingTransaction. by destruct (ngt _ _). Qed.

(** ** [countVotes] *)

Lemma nonnegValued_intValued m : nonnegValued m → intValued m.
Proof.
  intros H a v Hv. specialize (H a v Hv). simpl in *. by destruct v.
Qed.

Lemma nonnegValued_orZero m a :
  nonnegValued m → ∃ z, orZero (m !! a) = Int z ∧ 0 ≤ z.
Proof.
  intros H. destruct (m !! a) as [v|] eqn:Hv.
  - specialize (H a v Hv). simpl in H. destruct v as [z| |]; try discriminate.
    exists z. split; [done|]. by apply Z.leb_le.
  - by exists 0.
Qed.

Lemma nonnegValued_sum m : nonnegValued m → ∃ z, sumValues m = Int z ∧ 0 ≤ z.
Proof.
  induction m as [|a v m Hm IH] using map_ind; intros H.
  - exists 0. by rewrite sumValues_empty.
  - rewrite sumValues_insert_fresh by done.
    apply map_Forall_insert in H as [Hv H]; [|done].
    destruct (IH H) as (z & -> & Hz). destruct v as [x| |]; try discriminate.
    simpl in Hv. apply Z.leb_le in Hv. exists (z + x). split; [done|lia].
Qed.

(** The stake of distinct voters is at most the total stake. *)
Lemma voters_stake_le_total (l : list string) : ∀ m : gmap string num,
  NoDup l → nonnegValued m →
  foldr (λ a acc, toZ (orZero (m !! a)) + acc) 0 l ≤ toZ (sumValues m).
Proof.
  induction l as [|a l IH]; intros m Hnd Hm; simpl.
  - destruct (nonnegValued_sum _ Hm) as (z & -> & Hz). done.
  - apply NoDup_cons in Hnd as [Ha Hnd].
    assert (foldr (λ a0 acc, toZ (orZero (m !! a0)) + acc) 0 l
            = foldr (λ a0 acc, toZ (orZero (delete a m !! a0)) + acc) 0 l) as Hl.
    { clear IH Hnd. induction l as [|a' l IHl]; [done|]. simpl.
      apply not_elem_of_cons in Ha as [Hne Ha].
      rewrite lookup_delete_ne by done. by rewrite IHl. }
    destruct (m !! a) as [v|] eqn:Hv.
    + rewrite (sumValues_delete _ _ _ Hv), Hl.
      pose proof (IH (delete a m) Hnd (map_Forall_delete _ _ _ Hm)) as Hle.
      destruct (nonnegValued_sum _ (map_Forall_delete _ _ a Hm)) as (z & Hz & _).
      rewrite Hz in Hle |- *.
      specialize (Hm a v Hv). simpl in Hm. destruct v; try discriminate.
      simpl in *. lia.
    + simpl. apply IH; done.
Qed.

(** An integer exceeds two thirds of [t] exactly when it exceeds the floor
    of two thirds of [t]. *)
Lemma stakeSum_insert_fresh m a v :
  m !! a = None → stakeSum (<[a:=v]> m) = toZ v + stakeSum m.
Proof.
  intros Hm. unfold stakeSum.
  assert (∀ l l' : list (string * num), l ≡ₚ l' →
            foldr (λ entry total, toZ entry.2 + total) 0 l
            = foldr (λ entry total, toZ entry.2 + total) 0 l') as Hperm.
  { induction 1; simpl; lia. }
  by rewrite (Hperm _ _ (map_to_list_insert m a v Hm)).
Qed.

(** [getTotalStake] computes the sum of the stake balances when these are
    integers. *)
Lemma sumValues_stakeSum m : intValued m → sumValues m = Int (stakeSum m).
Proof.
  induction m as [|a v m Hm IH] using map_ind; intros H.
  - rewrite sumValues_empty. unfold stakeSum. by rewrite map_to_list_empty.
  - rewrite sumValues_insert_fresh, stakeSum_insert_fresh by done.
    apply map_Forall_insert in H as [Hv H]; [|done].
    rewrite (IH H). destruct v; try discriminate. simpl. f_equal. lia.
Qed.

Lemma two_thirds_floor (t v : Z) : 2 * t / 3 < v ↔ 2 * t < 3 * v.
Proof.
  pose proof (Z.div_mod (2 * t) 3 ltac:(lia)).
  pose proof (Z.mod_pos_bound (2 * t) 3 ltac:(lia)). lia.
Qed.

Section CountVotes.
Variable this : Node.t.
Variable totalStake : Z.
Hypothesis Hstake : nonnegValued (stakeBalances (Node.currentBlock this)).
Hypothesis Htotal : getTotalStake (Node.currentBlock this) = Int totalStake.

Local Lemma stakeOf_spec a :
  amountGoldStaked (Node.currentBlock this) a = Int (stakeOf this a) ∧ 0 ≤ stakeOf this a.
Proof.
  unfold stakeOf, amountGoldStaked.
  destruct (nonnegValued_orZero _ a Hstake) as (z & -> & Hz). done.
Qed.

Local Lemma votesFor_nonneg entry blockID : 0 ≤ votesFor this entry blockID.
Proof.
  unfold votesFor. destruct (Vote.isStale _ _ _); [done|].
  case_bool_decide; [apply stakeOf_spec|done].
Qed.

Local Lemma tallyZ_nonneg ballotBox blockID : 0 ≤ tallyZ this ballotBox blockID.
Proof.
  induction ballotBox as [|e l IH]; simpl; [done|].
  pose proof (votesFor_nonneg e blockID). lia.
Qed.

Local Lemma tally_tallyZ ballotBox blockID :
  tally this ballotBox blockID = Int (tallyZ this ballotBox blockID).
Proof.
  induction ballotBox as [|e l IH]; simpl; [done|].
  rewrite IH. unfold votesFor. destruct (Vote.isStale _ _ _); [done|].
  case_bool_decide; [|done].
  destruct (stakeOf_spec e.1) as [-> _]. done.
Qed.

Local Lemma tallyZ_perm l l' blockID :
  l ≡ₚ l' → tallyZ this l blockID = tallyZ this l' blockID.
Proof.
  induction 1; simpl; lia.
Qed.

Local Lemma countVote_fold ballotBox : ∀ st (t : string → Z),
  (∀ blockID, orZero (st.1 !! blockID) = Int (t blockID)) →
  winnerOK totalStake t st.2 →
  let st' := foldl (countVote this (Int totalStake)) st ballotBox in
  (∀ blockID, orZero (st'.1 !! blockID) = Int (t blockID + tallyZ this ballotBox blockID))
  ∧ winnerOK totalStake (λ blockID, t blockID + tallyZ this ballotBox blockID) st'.2.
Proof.
  induction ballotBox as [|e l IH]; intros st t Hcand Hwin; simpl.
  - split.
    + intros blockID. rewrite Hcand. f_equal. lia.
    + destruct st.2; simpl in *.
      * by rewrite Z.add_0_r.
      * intros blockID. rewrite Z.add_0_r. apply Hwin.
  - set (st1 := countVote this (Int totalStake) st e).
    assert ((∀ blockID, orZero (st1.1 !! blockID) = Int (t blockID + votesFor this e blockID))
            ∧ winnerOK totalStake (λ blockID, t blockID + votesFor this e blockID) st1.2)
      as [Hcand1 Hwin1].
    { subst st1. unfold countVote, votesFor.
      destruct (Vote.isStale _ _ _).
      { split.
        - intros blockID. rewrite Hcand. f_equal. lia.
        - destruct st.2; simpl in *.
          + by rewrite Z.add_0_r.
          + intros blockID. rewrite Z.add_0_r. apply Hwin. }
      destruct (stakeOf_spec e.1) as [-> Hpos].
      rewrite Hcand. simpl nadd.
      assert (∀ blockID,
        orZero (<[Vote.blockID e.2 := Int (t (Vote.blockID e.2) + stakeOf this e.1)]> st.1
                  !! blockID)
        = Int (t blockID + (if bool_decide (Vote.blockID e.2 = blockID)
                            then stakeOf this e.1 else 0))) as Hcand1.
      { intros blockID. case_bool_decide as Hb.
        - subst. by rewrite lookup_insert_eq.
        - rewrite lookup_insert_ne by done. rewrite Hcand. f_equal. lia. }
      unfold gtVotesNeeded.
      destruct (Z.ltb_spec (2 * totalStake) (3 * (t (Vote.blockID e.2) + stakeOf this e.1)))
        as [Hgt|Hle]; simpl; (split; [exact Hcand1|]).
      - assert ((if bool_decide (Vote.blockID e.2 = NIL) then NIL else Vote.blockID e.2)
                = Vote.blockID e.2) as -> by (by case_bool_decide).
        simpl. by rewrite bool_decide_eq_true_2.
      - destruct st.2 as [w|]; simpl in *.
        + case_bool_decide; lia.
        + intros blockID. specialize (Hwin blockID).
          case_bool_decide; [subst|]; lia. }
    destruct (IH st1 _ Hcand1 Hwin1) as [Hc Hw]. split.
    + intros blockID. rewrite Hc. f_equal. lia.
    + destruct (foldl _ st1 l).2 as [w|]; simpl in *.
      * lia.
      * intros blockID. specialize (Hw blockID). lia.
Qed.

Local Lemma totalStake_nonneg : 0 ≤ totalStake.
Proof.
  destruct (nonnegValued_sum _ Hstake) as (z & Hz & Hpos).
  unfold getTotalStake in Htotal. rewrite Htotal in Hz. by injection Hz as ->.
Qed.

Local Lemma countVotes_winnerOK ballotBox :
  winnerOK totalStake (tallyZ this ballotBox) (countVotes this ballotBox).
Proof.
  unfold countVotes. rewrite Htotal.
  destruct (countVote_fold ballotBox (∅, None) (λ _, 0)) as [_ Hw]; [done| |].
  - simpl. intros _. pose proof totalStake_nonneg. lia.
  - simpl in Hw. destruct (foldl _ _ _).2; simpl in *; [done|].
    intros blockID. apply Hw.
Qed.

Lemma countVotes_Some ballotBox w :
  countVotes this ballotBox = Some w → 2 * totalStake < 3 * tallyZ this ballotBox w.
Proof.
  intros Heq. pose proof (countVotes_winnerOK ballotBox) as Hw.
  by rewrite Heq in Hw.
Qed.

Lemma countVotes_None ballotBox blockID :
  countVotes this ballotBox = None → ¬ 2 * totalStake < 3 * tallyZ this ballotBox blockID.
Proof.
  intros Heq. pose proof (countVotes_winnerOK ballotBox) as Hw.
  rewrite Heq in Hw. apply Hw.
Qed.

(** Two different blocks cannot both have more than two thirds of the
    stake behind them. *)
Lemma tallyZ_two_blocks ballotBox w w' :
  NoDup ballotBox.*1 → w ≠ w' →
  tallyZ this ballotBox w + tallyZ this ballotBox w' ≤ totalStake.
Proof.
  intros Hnd Hne.
  pose proof (voters_stake_le_total ballotBox.*1 _ Hnd Hstake) as Hle.
  unfold getTotalStake in Htotal. rewrite Htotal in Hle. simpl in Hle.
  etrans; [|exact Hle]. clear Hle Hnd.
  induction ballotBox as [|e l IH]; csimpl; [done|].
  fold (amountGoldStaked (Node.currentBlock this) e.1).
  fold (stakeOf this e.1).
  assert (votesFor this e w + votesFor this e w' ≤ stakeOf this e.1); [|lia].
  unfold votesFor. destruct (stakeOf_spec e.1) as [_ Hpos].
  destruct (Vote.isStale _ _ _); [lia|].
  repeat case_bool_decide; try lia. congruence.
Qed.

Lemma countVotes_iff ballotBox w :
  NoDup ballotBox.*1 →
  countVotes this ballotBox = Some w ↔ 2 * totalStake < 3 * tallyZ this ballotBox w.
Proof.
  intros Hnd. split; [apply countVotes_Some|].
  intros Hw. destruct (countVotes this ballotBox) as [w'|] eqn:Hc.
  - destruct (decide (w' = w)) as [->|Hne]; [done|].
    apply countVotes_Some in Hc.
    pose proof (tallyZ_two_blocks ballotBox w' w Hnd Hne).
    pose proof totalStake_nonneg. lia.
  - by apply (countVotes_None _ w) in Hc.
Qed.

Lemma countVotes_perm ballotBox ballotBox' :
  NoDup ballotBox.*1 → ballotBox ≡ₚ ballotBox' →
  countVotes this ballotBox = countVotes this ballotBox'.
Proof.
  intros Hnd Hperm.
  assert (NoDup ballotBox'.*1) as Hnd'.
  { eapply NoDup_Permutation_proper; [|exact Hnd]. by rewrite Hperm. }
  destruct (countVotes this ballotBox) as [w|] eqn:Hc.
  - symmetry. apply countVotes_iff; [done|].
    rewrite <-(tallyZ_perm _ _ _ Hperm). by apply countVotes_iff.
  - destruct (countVotes this ballotBox') as [w|] eqn:Hc'; [|done].
    apply countVotes_iff in Hc'; [|done].
    rewrite <-(tallyZ_perm _ _ _ Hperm) in Hc'.
    by apply (countVotes_None _ w) in Hc.
Qed.

Lemma tally_unique ballotBox w w' votes votes' :
  NoDup ballotBox.*1 →
  tally this ballotBox w = Int votes → tally this ballotBox w' = Int votes' →
  2 * totalStake / 3 < votes → 2 * totalStake / 3 < votes' → w = w'.
Proof.
  intros Hnd Hw Hw' Hv Hv'. rewrite tally_tallyZ in Hw, Hw'.
  injection Hw as <-. injection Hw' as <-.
  apply two_thirds_floor in Hv, Hv'.
  destruct (decide (w = w')) as [|Hne]; [done|].
  pose proof (tallyZ_two_blocks ballotBox w w' Hnd Hne).
  pose proof totalStake_nonneg. lia.
Qed.

Lemma countVotes_tally ballotBox :
  (∀ blockID, countVotes this ballotBox = Some blockID →
     ∃ votes, tally this ballotBox blockID = Int votes ∧ 2 * totalStake / 3 < votes)
  ∧ ((∀ blockID votes, tally this ballotBox blockID = Int votes →
        ¬ 2 * totalStake / 3 < votes) →
     countVotes this ballotBox = None).
Proof.
  pose proof (two_thirds_floor totalStake) as Hdiv.
  split.
  - intros blockID Hc. exists (tallyZ this ballotBox blockID).
    split; [apply tally_tallyZ|]. apply Hdiv. by apply countVotes_Some.
  - intros Hnone. destruct (countVotes this ballotBox) as [w|] eqn:Hc; [|done].
    apply countVotes_Some in Hc. apply Hdiv in Hc.
    by apply (Hnone w _ (tally_tallyZ ballotBox w)) in Hc.
Qed.
End CountVotes.

(** C1. With non-negative integer stakes, [getTotalStake] is the sum of
    all the stake balances of the current block, [countVotes] returns a
    block only if the stake of the voters whose vote in the ballot box is
    not stale and is for that block exceeds the floor of two thirds of that
    sum, and it returns [undefined] if no block has that much stake behind
    it. *)
Theorem countVotes_threshold (this : Node.t) (ballotBox : list (string * Vote.t)) :
  nonnegValued (stakeBalances (Node.currentBlock this)) →
  let totalStake := stakeSum (stakeBalances (Node.currentBlock this)) in
  getTotalStake (Node.currentBlock this) = Int totalStake
  ∧ (∀ blockID, countVotes this ballotBox = Some blockID →
       ∃ votes, tally this ballotBox blockID = Int votes ∧ 2 * totalStake / 3 < votes)
  ∧ ((∀ blockID votes, tally this ballotBox blockID = Int votes →
        ¬ 2 * totalStake / 3 < votes) →
     countVotes this ballotBox = None).
Proof.
  intros Hstake totalStake.
  assert (getTotalStake (Node.currentBlock this) = Int totalStake) as Htotal
    by apply sumValues_stakeSum, nonnegValued_intValued, Hstake.
  split; [done|]. by apply countVotes_tally.
Qed.

(** Without the condition on the stakes the statement of C1 fails.  On
    [demoOverdrawnNode] the stakes are 10 for alice, -4 for bob, of whose
    stake of 5 an amount of 9 has been released, and 3 for carol, 9 in all.
    With one vote of alice and one of bob for the block X, [countVotes]
    returns X, although the stake behind X is 6, which does not exceed the
    floor of two thirds of 9. *)
Lemma countVotes_threshold_counterexample :
  let this := demoOverdrawnNode in
  let totalStake := stakeSum (stakeBalances (Node.currentBlock this)) in
  NoDup demoBallotBox.*1
  ∧ stakeBalances (Node.currentBlock this) !! "alice" = Some (Int 10)
  ∧ stakeBalances (Node.currentBlock this) !! "bob" = Some (Int (-4))
  ∧ stakeBalances (Node.currentBlock this) !! "carol" = Some (Int 3)
  ∧ totalStake = 9
  ∧ getTotalStake (Node.currentBlock this) = Int totalStake
  ∧ countVotes this demoBallotBox = Some "X"
  ∧ tally this demoBallotBox "X" = Int 6
  ∧ ¬ (∃ votes, tally this demoBallotBox "X" = Int votes ∧ 2 * totalStake / 3 < votes).
Proof.
  intros this totalStake.
  assert (totalStake = 9) as Htotal by (vm_compute; reflexivity).
  assert (tally this demoBallotBox "X" = Int 6) as Htally by (vm_compute; reflexivity).
  split; [apply (bool_decide_unpack _); vm_compute; exact I|].
  do 3 (split; [vm_compute; reflexivity|]).
  split; [exact Htotal|]. split; [vm_compute; reflexivity|].
  split; [vm_compute; reflexivity|]. split; [exact Htally|].
  intros (votes & Hvotes & Hgt). rewrite Htally in Hvotes. injection Hvotes as <-.
  rewrite Htotal in Hgt. vm_compute in Hgt. discriminate.
Qed.

(** C9. With non-negative integer stakes and one vote for each voter,
    [countVotes] gives the same result for the votes of a ballot box in any
    order, and at most one block has more than the floor of two thirds of
    the sum of the stake balances behind it. *)
Theorem countVotes_order_independent (this : Node.t)
    (ballotBox ballotBox' : list (string * Vote.t)) :
  NoDup ballotBox.*1 →
  nonnegValued (stakeBalances (Node.currentBlock this)) →
  ballotBox ≡ₚ ballotBox' →
  let totalStake := stakeSum (stakeBalances (Node.currentBlock this)) in
  countVotes this ballotBox = countVotes this ballotBox'
  ∧ ∀ w w' votes votes',
      tally this ballotBox w = Int votes → tally this ballotBox w' = Int votes' →
      2 * totalStake / 3 < votes → 2 * totalStake / 3 < votes' → w = w'.
Proof.
  intros Hnd Hstake Hperm totalStake.
  assert (getTotalStake (Node.currentBlock this) = Int totalStake) as Htotal
    by apply sumValues_stakeSum, nonnegValued_intValued, Hstake.
  split.
  - by apply (countVotes_perm this totalStake).
  - intros w w' votes votes'. by apply tally_unique.
Qed.

(** Without the condition on the stakes the statement of C9 fails.  On
    [demoOverdrawnNode], where the stake of bob is -4 and the total 9, the
    ballot box with the vote of alice (10) before that of bob gives X: the
    running sum is 10 after the first vote.  With the same two votes in the
    other order the running sums are -4 and 6, and no block wins. *)
Lemma countVotes_order_independent_counterexample :
  NoDup demoBallotBox.*1
  ∧ demoBallotBox ≡ₚ reverse demoBallotBox
  ∧ stakeBalances (Node.currentBlock demoOverdrawnNode) !! "bob" = Some (Int (-4))
  ∧ countVotes demoOverdrawnNode demoBallotBox = Some "X"
  ∧ countVotes demoOverdrawnNode (reverse demoBallotBox) = None
  ∧ countVotes demoOverdrawnNode demoBallotBox
    ≠ countVotes demoOverdrawnNode (reverse demoBallotBox).
Proof.
  assert (countVotes demoOverdrawnNode demoBallotBox = Some "X") as HX
    by (vm_compute; reflexivity).
  assert (countVotes demoOverdrawnNode (reverse demoBallotBox) = None) as Hnone
    by (vm_compute; reflexivity).
  split; [apply (bool_decide_unpack _); vm_compute; exact I|].
  split; [apply perm_swap|]. split; [vm_compute; reflexivity|].
  split; [exact HX|]. split; [exact Hnone|].
  rewrite HX, Hnone. discriminate.
Qed.

(** ** Unstaking *)

Lemma handleUnstakingEvents_chainLength b :
  chainLength (handleUnstakingEvents b) = chainLength b.
Proof. unfold handleUnstakingEvents. by destruct (_ !! _). Qed.

(** Handling the events of one height leaves the queues of the other
    heights as they are. *)
Lemma handleUnstakingEvents_other b k :
  k ≠ inl (chainLength b) →
  unstakingEvents (handleUnstakingEvents b) !! k = unstakingEvents b !! k.
Proof.
  intros Hk. unfold handleUnstakingEvents.
  destruct (unstakingEvents b !! inl (chainLength b)); [|done].
  simpl. by rewrite lookup_delete_ne.
Qed.

(** At the height of a queue, its events are released in order and the
    queue is deleted. *)
Lemma handleUnstakingEvents_due b q :
  unstakingEvents b !! inl (chainLength b) = Some q →
  stakeBalances (handleUnstakingEvents b) = foldl releaseStake (stakeBalances b) q
  ∧ unstakingEvents (handleUnstakingEvents b) = delete (inl (chainLength b)) (unstakingEvents b).
Proof. intros Hq. unfold handleUnstakingEvents. by rewrite Hq. Qed.

Lemma handleUnstakingEvents_idle b :
  unstakingEvents b !! inl (chainLength b) = None → handleUnstakingEvents b = b.
Proof. intros Hq. unfold handleUnstakingEvents. by rewrite Hq. Qed.

Lemma descendant_succ n b :
  descendant (S n) b = newStakeBlock (rewardAddr (descendant n b)) (descendant n b).
Proof. reflexivity. Qed.

Lemma descendant_0 b : descendant 0 b = b.
Proof. reflexivity. Qed.

#[local] Opaque descendant.

Lemma descendant_chainLength n b :
  chainLength (descendant n b) = chainLength b + Z.of_nat n.
Proof.
  induction n as [|n IH]; [rewrite descendant_0; lia|].
  rewrite descendant_succ.
  unfold newStakeBlock. rewrite handleUnstakingEvents_chainLength.
  cbn [chainLength]. lia.
Qed.

(** Two chains of blocks without transactions whose first blocks differ
    only in the queue for a height that is still ahead stay like that. *)
Lemma descendant_pending n : ∀ b b1 k q1,
  chainLength b1 = chainLength b →
  balances b1 = balances b →
  stakeBalances b1 = stakeBalances b →
  accumPower b1 = accumPower b →
  unstakingEvents b1 = <[inl k := q1]> (unstakingEvents b) →
  chainLength b + Z.of_nat n < k →
  stakeBalances (descendant n b1) = stakeBalances (descendant n b)
  ∧ balances (descendant n b1) = balances (descendant n b)
  ∧ accumPower (descendant n b1) = accumPower (descendant n b)
  ∧ unstakingEvents (descendant n b1) = <[inl k := q1]> (unstakingEvents (descendant n b))
  ∧ unstakingEvents (descendant n b) !! inl k = unstakingEvents b !! inl k.
Proof.
  induction n as [|n IH]; intros b b1 k q1 Hlen Hbal Hstake Hpow Hev Hk.
  - by rewrite !descendant_0.
  - destruct (IH b b1 k q1) as (IHs & IHb & IHp & IHe & IHk); try done; [lia|].
    pose proof (descendant_chainLength n b) as Hn.
    pose proof (descendant_chainLength n b1) as Hn1.
    rewrite !descendant_succ.
    set (d := descendant n b) in *. set (d1 := descendant n b1) in *.
    clearbody d d1. clear IH.
    unfold newStakeBlock, handleUnstakingEvents. simpl.
    rewrite IHs, IHb, IHp, IHe, Hn, Hn1, Hlen.
    rewrite lookup_insert_ne by (intros [= ?]; lia).
    destruct (unstakingEvents d !! inl (chainLength b + Z.of_nat n + 1)) as [q|] eqn:Hq; simpl.
    + repeat (split; [done|]). split.
      * apply delete_insert_ne. intros [= ?]; lia.
      * rewrite lookup_delete_ne by (intros [= ?]; lia). done.
    + done.
Qed.

Lemma foldl_releaseStake_snoc sb q ev :
  foldl releaseStake sb (q ++ [ev]) = releaseStake (foldl releaseStake sb q) ev.
Proof. by rewrite foldl_app. Qed.

(** C7. In a block of height [h], an UNSTAKE transaction of [addr] for
    [amount] appends [{addr, amount}] to the queue of height [h + 35] and
    leaves [stakeBalances] as it is.  The blocks of the next 34 heights have
    the stake balances they would have without it, with the event still
    queued; the block of height [h + 35] has [amount] subtracted from
    [stakeBalances[addr]] when it is constructed, and no queue for its
    height any more. *)
Theorem unstake_delay `{Utils} (b : StakeBlock) (addr : string) (amountToUnstake : Z) :
  let ev := {| clientID := addr; amount := amountToUnstake |} in
  let h := chainLength b in
  let queued := default [] (unstakingEvents b !! inl (h + 35)) in
  let b1 := unstakeGold addr amountToUnstake b in
  UNSTAKE_DELAY = 35
  ∧ (∀ super tx b0,
       Tx.from tx = addr → Tx.data tx = UNSTAKE amountToUnstake → super tx b0 = Some b →
       addTransaction super tx b0 = Returns (true, b1))
  ∧ unstakingEvents b1 = <[inl (h + 35) := queued ++ [ev]]> (unstakingEvents b)
  ∧ stakeBalances b1 = stakeBalances b
  ∧ (∀ n, (n < 35)%nat →
       chainLength (descendant n b1) = h + Z.of_nat n
       ∧ stakeBalances (descendant n b1) = stakeBalances (descendant n b)
       ∧ unstakingEvents (descendant n b1) !! inl (h + 35) = Some (queued ++ [ev]))
  ∧ chainLength (descendant 35 b1) = h + 35
  ∧ stakeBalances (descendant 35 b1) =
      <[addr := nsub (toNumber (stakeBalances (descendant 35 b) !! addr)) (Int amountToUnstake)]>
        (stakeBalances (descendant 35 b))
  ∧ unstakingEvents (descendant 35 b1) !! inl (h + 35) = None.
Proof.
  intros ev h queued b1.
  assert (unstakingEvents b1 = <[inl (h + 35) := queued ++ [ev]]> (unstakingEvents b)) as Hev
    by done.
  assert (∀ n, (n < 35)%nat →
    stakeBalances (descendant n b1) = stakeBalances (descendant n b)
    ∧ balances (descendant n b1) = balances (descendant n b)
    ∧ accumPower (descendant n b1) = accumPower (descendant n b)
    ∧ unstakingEvents (descendant n b1)
      = <[inl (h + 35) := queued ++ [ev]]> (unstakingEvents (descendant n b))
    ∧ unstakingEvents (descendant n b) !! inl (h + 35) = unstakingEvents b !! inl (h + 35))
    as Hchain.
  { intros n Hn. apply descendant_pending; try done. fold h. lia. }
  split; [done|]. split.
  { intros super tx b0 Hfrom Hdata Hsuper. unfold addTransaction.
    by rewrite Hsuper, Hdata, Hfrom. }
  split; [done|]. split; [done|]. split.
  { intros n Hn. destruct (Hchain n Hn) as (Hs & _ & _ & He & _).
    rewrite descendant_chainLength. split; [reflexivity|]. split; [exact Hs|].
    rewrite He. apply lookup_insert_eq. }
  split; [rewrite descendant_chainLength; change (chainLength b1) with h; lia|].
  destruct (Hchain 34%nat ltac:(lia)) as (Hs & Hb & Hp & He & Hk).
  pose proof (descendant_chainLength 34 b) as Hn.
  pose proof (descendant_chainLength 34 b1) as Hn1.
  rewrite !(descendant_succ 34).
  change (chainLength b1) with h in Hn1. fold h in Hn.
  set (d := descendant 34 b) in *. set (d1 := descendant 34 b1) in *.
  clearbody d d1. clear Hchain.
  unfold newStakeBlock, handleUnstakingEvents. simpl.
  rewrite Hs, He, Hn, Hn1.
  replace (h + Z.of_nat 34 + 1) with (h + 35) by lia.
  rewrite lookup_insert_eq, Hk. simpl.
  rewrite foldl_releaseStake_snoc. subst queued.
  destruct (unstakingEvents b !! inl (h + 35)) as [q|]; simpl.
  - split; [done|]. apply lookup_delete_eq.
  - split; [done|]. apply lookup_delete_eq.
Qed.

(** ** Slashing *)

(** The rewards go to the addresses with stake and to no other. *)
Lemma reward_fold_other stakeAmount totalBonded (stake : gmap string num) :
  ∀ bal a, stake !! a = None →
  map_fold (reward stakeAmount totalBonded) bal stake !! a = bal !! a.
Proof.
  induction stake as [|i x m Hm Hfst IH] using map_first_key_ind; intros bal a Ha.
  - by rewrite map_fold_empty.
  - rewrite map_fold_insert_first_key by done.
    apply lookup_insert_None in Ha as [Ha Hne].
    unfold reward at 1. rewrite lookup_insert_ne by done. by apply IH.
Qed.

(** A validator with stake is credited its share. *)
Lemma reward_fold_share stakeAmount totalBonded (stake : gmap string num) :
  ∀ bal a amountStaked, stake !! a = Some amountStaked →
  map_fold (reward stakeAmount totalBonded) bal stake !! a
  = Some (nadd (orZero (bal !! a)) (share stakeAmount amountStaked totalBonded)).
Proof.
  induction stake as [|i x m Hm Hfst IH] using map_first_key_ind;
    intros bal a amountStaked Ha.
  - by rewrite lookup_empty in Ha.
  - rewrite map_fold_insert_first_key by done. unfold reward at 1.
    destruct (decide (i = a)) as [->|Hne].
    + rewrite lookup_insert_eq in Ha. injection Ha as ->.
      rewrite lookup_insert_eq. by rewrite reward_fold_other.
    + rewrite lookup_insert_ne in Ha by done.
      rewrite lookup_insert_ne by done. by apply IH.
Qed.

(** What [slash] does to the cheater: the entries in [stakeBalances] and
    [accumPower] are removed and the bonded stake is taken from the liquid
    balance. *)
Lemma slash_cheater cheaterAddr b :
  stakeBalances (slash cheaterAddr b) = delete cheaterAddr (stakeBalances b)
  ∧ accumPower (slash cheaterAddr b) = delete cheaterAddr (accumPower b)
  ∧ balances (slash cheaterAddr b) !! cheaterAddr
    = Some (nsub (balanceOf b cheaterAddr) (amountGoldStaked b cheaterAddr)).
Proof.
  unfold slash. simpl. split; [done|]. split; [done|].
  rewrite reward_fold_other by apply lookup_delete_eq.
  apply lookup_insert_eq.
Qed.

(** What [slash] does to the unstaking events: the key it deletes is an
    address, the queues are under heights, and every queue stays. *)
Lemma slash_unstakingEvents cheaterAddr b (h : Z) :
  unstakingEvents (slash cheaterAddr b) !! inl h = unstakingEvents b !! inl h.
Proof. unfold slash. simpl. by rewrite lookup_delete_ne. Qed.

Lemma punishCheater_unstakingEvents `{Utils} msg1 msg2 b (h : Z) :
  unstakingEvents (punishCheater msg1 msg2 b) !! inl h = unstakingEvents b !! inl h.
Proof.
  unfold punishCheater.
  destruct (Msg.block msg1);
    match goal with |- context [if ?c then _ else _] => destruct c end;
    try done; apply slash_unstakingEvents.
Qed.

(** An unstaking event for an address without stake gives that address the
    stake NaN. *)
Lemma releaseStake_absent sb ev :
  sb !! clientID ev = None → releaseStake sb ev !! clientID ev = Some NaN.
Proof. intros Hsb. unfold releaseStake. by rewrite lookup_insert_eq, Hsb. Qed.

(** C3. On [demoBlock], where alice has an unstaking event pending for
    height 40, the evidence of two votes of alice for different blocks at
    the same height and round removes alice from [stakeBalances] and
    [accumPower] and takes her stake of 100 from her balance, and leaves her
    unstaking event in [unstakingEvents]. *)
Theorem punishCheater_keeps_pending_unstake :
  let after :=
    punishCheater (H:=demoUtils) (demoMsg "alice" 10 1 PREVOTE "X")
      (demoMsg "alice" 10 1 PREVOTE "Y") demoBlock in
  stakeBalances after !! "alice" = None
  ∧ accumPower after !! "alice" = None
  ∧ balances after !! "alice" = Some (Int 900)
  ∧ unstakingEvents after !! inl 40 = Some [{| clientID := "alice"; amount := 30 |}].
Proof. vm_compute. repeat split. Qed.

(** C4. On [demoShareBlock], slashing the 49 of mallory with alice at 1 and
    bob at 48 of the remaining 49 credits alice [share 49 1 49], which in
    binary64 is [Math.floor(49 * (1 / 49)) = 0], where the floor of
    [49 * 1 / 49] is 1: the balance of alice is not increased. *)
Theorem punishCheater_share_below_floor :
  let after :=
    punishCheater (H:=demoUtils) (demoMsg "mallory" 10 1 PREVOTE "X")
      (demoMsg "mallory" 10 1 PREVOTE "Y") demoShareBlock in
  getTotalStake after = Int 49
  ∧ stakeBalances after !! "alice" = Some (Int 1)
  ∧ 49 * 1 / 49 = 1
  ∧ share (Int 49) (Int 1) (Int 49) = Int 0
  ∧ balanceOf demoShareBlock "alice" = Int 1000
  ∧ balanceOf after "alice" = Int 1000.
Proof. vm_compute. repeat split. Qed.

(** C8. On [demoDueBlock], where the unstaking event of alice is due and
    alice has no stake, [handleUnstakingEvents] gives alice an entry in
    [stakeBalances], with the stake NaN, and the total stake is NaN from
    then on.  The same happens 30 blocks after alice is slashed on
    [demoBlock]. *)
Theorem handleUnstakingEvents_adds_entry :
  stakeBalances demoDueBlock !! "alice" = None
  ∧ stakeBalances (handleUnstakingEvents demoDueBlock) !! "alice" = Some NaN
  ∧ getTotalStake (handleUnstakingEvents demoDueBlock) = NaN
  ∧ let slashed :=
      punishCheater (H:=demoUtils) (demoMsg "alice" 10 1 PREVOTE "X")
        (demoMsg "alice" 10 1 PREVOTE "Y") demoBlock in
    stakeBalances (descendant 29 slashed) !! "alice" = None
    ∧ chainLength (descendant 30 slashed) = 40
    ∧ stakeBalances (descendant 30 slashed) !! "alice" = Some NaN.
Proof. vm_compute. repeat split. Qed.

(** ** The theorems at the example data *)

(** Decides a closed decidable proposition by evaluation. *)
Ltac run := apply (bool_decide_unpack _); vm_compute; exact I.

Lemma countVotes_threshold_witness :
  nonnegValued (stakeBalances (Node.currentBlock demoNode))
  ∧ stakeSum (stakeBalances (Node.currentBlock demoNode)) = 200
  ∧ countVotes demoNode demoBallotBox = Some "X"
  ∧ ∃ votes, tally demoNode demoBallotBox "X" = Int votes ∧ 2 * 200 / 3 < votes.
Proof.
  assert (nonnegValued (stakeBalances (Node.currentBlock demoNode))) as Hstake by run.
  assert (countVotes demoNode demoBallotBox = Some "X") as HX by (vm_compute; reflexivity).
  split; [exact Hstake|]. split; [vm_compute; reflexivity|]. split; [exact HX|].
  exact (proj1 (proj2 (countVotes_threshold demoNode demoBallotBox Hstake)) "X" HX).
Defined.

Lemma updateAccumPower_preserves_total_witness :
  intValued (stakeBalances demoBlock)
  ∧ intValued (accumPower demoBlock)
  ∧ is_Some (accumPower demoBlock !! "alice")
  ∧ accumPower (updateAccumPower "alice" demoBlock) !! "alice" = Some (Int 0)
  ∧ accumPower (updateAccumPower "alice" demoBlock) !! "bob" = Some (Int 100)
  ∧ sumValues (accumPower (updateAccumPower "alice" demoBlock))
    = sumValues (accumPower demoBlock).
Proof.
  assert (intValued (stakeBalances demoBlock)) as Hstake by run.
  assert (intValued (accumPower demoBlock)) as Hpower by run.
  assert (is_Some (accumPower demoBlock !! "alice")) as Hprop by run.
  split; [exact Hstake|]. split; [exact Hpower|]. split; [exact Hprop|].
  split; [vm_compute; reflexivity|]. split; [vm_compute; reflexivity|].
  exact (proj2 (proj2 (updateAccumPower_preserves_total demoBlock "alice"
                         Hstake Hpower (or_introl Hprop)))).
Defined.

Lemma verifyAndVote_cases_witness :
  let m := demoMsg "alice" 10 1 PREVOTE "Y" in
  let ballotBox := [("alice", demoVote "alice" 10 1 PREVOTE "X")] in
  Vote.isValid (H:=demoUtils) (Node.height demoNode) (Node.round demoNode) (Vote.new m) = true
  ∧ NoDup ballotBox.*1
  ∧ NoDup (verifyAndVote (H:=demoUtils) m ballotBox demoNode).2.*1
  ∧ ∃ tx, Tx.data tx =
            EVIDENCE "alice" (demoMsg "alice" 10 1 PREVOTE "X") (demoMsg "alice" 10 1 PREVOTE "Y")
          ∧ Node.net (verifyAndVote (H:=demoUtils) m ballotBox demoNode).1
            = [(POST_TRANSACTION, tx)].
Proof.
  intros m ballotBox.
  assert (Vote.isValid (H:=demoUtils) (Node.height demoNode) (Node.round demoNode)
            (Vote.new m) = true) as Hvalid by (vm_compute; reflexivity).
  assert (NoDup ballotBox.*1) as Hnd by run.
  split; [exact Hvalid|]. split; [exact Hnd|].
  destruct (verifyAndVote_cases (H:=demoUtils) demoNode ballotBox m Hvalid Hnd)
    as (Hone & _ & Hcases).
  split; [exact Hone|].
  change (objGet ballotBox (Vote.from (Vote.new m)))
    with (Some (demoVote "alice" 10 1 PREVOTE "X")) in Hcases.
  destruct Hcases as (_ & _ & _ & Hevidence).
  destruct Hevidence as (tx & Hdata & _ & Hnet & _);
    [reflexivity|reflexivity|run|].
  exists tx. split; [exact Hdata|exact Hnet].
Defined.

Lemma unstake_delay_witness :
  let b1 := unstakeGold "bob" 20 demoBlock in
  unstakingEvents b1 !! inl 45 = Some [{| clientID := "bob"; amount := 20 |}]
  ∧ stakeBalances (descendant 34 b1) !! "bob" = Some (Int 50)
  ∧ unstakingEvents (descendant 34 b1) !! inl 45 = Some [{| clientID := "bob"; amount := 20 |}]
  ∧ stakeBalances (descendant 35 b1) !! "bob" = Some (Int 30)
  ∧ unstakingEvents (descendant 35 b1) !! inl 45 = None.
Proof.
  intros b1. subst b1.
  destruct (unstake_delay (H:=demoUtils) demoBlock "bob" 20)
    as (_ & _ & Hqueue & _ & Hwait & _ & Hdue & Hgone).
  split; [rewrite Hqueue; vm_compute; reflexivity|].
  destruct (Hwait 34%nat ltac:(lia)) as (_ & Hstake & Hevent).
  split; [rewrite Hstake; vm_compute; reflexivity|].
  split; [exact Hevent|].
  split; [rewrite Hdue; vm_compute; reflexivity|exact Hgone].
Defined.

Lemma countVotes_order_independent_witness :
  NoDup demoBallotBox.*1
  ∧ nonnegValued (stakeBalances (Node.currentBlock demoNode))
  ∧ demoBallotBox ≡ₚ reverse demoBallotBox
  ∧ countVotes demoNode demoBallotBox = countVotes demoNode (reverse demoBallotBox).
Proof.
  assert (NoDup demoBallotBox.*1) as Hnd by run.
  assert (nonnegValued (stakeBalances (Node.currentBlock demoNode))) as Hstake by run.
  assert (demoBallotBox ≡ₚ reverse demoBallotBox) as Hperm by apply perm_swap.
  split; [exact Hnd|]. split; [exact Hstake|]. split; [exact Hperm|].
  exact (proj1 (countVotes_order_independent demoNode _ _ Hnd Hstake Hperm)).
Defined.

Lemma postUnstakingTransaction_checks_fee_only_witness :
  availableGold demoNode = Int 950
  ∧ ∃ tx this',
      postUnstakingTransaction (H:=demoUtils) 1000000 1 demoNode = Returns (tx, this')
      ∧ Tx.data tx = UNSTAKE 1000000
      ∧ Node.nonce this' = 1
      ∧ Node.net this' = [(POST_TRANSACTION, tx)].
Proof.
  assert (availableGold demoNode = Int 950) as Hgold by (vm_compute; reflexivity).
  split; [exact Hgold|].
  destruct (proj2 (postUnstakingTransaction_checks_fee_only (H:=demoUtils)
                     demoNode 1000000 1) 950 Hgold ltac:(lia))
    as (tx & this' & Hpost & Hdata & _ & _ & _ & _ & Hnonce & Hnet & _).
  exists tx, this'. split; [exact Hpost|]. split; [exact Hdata|].
  split; [exact Hnonce|exact Hnet].
Defined.

(** * Further properties *)

(** ** The staking ledger *)

(** X1. [stakeGold] raises the stake of the address, 0 if it had none, and
    the total stake by the amount staked, and changes nothing else: no
    other stake, no balance, no pending event and no accumulated power. *)
Theorem stakeGold_total (b : StakeBlock) (addr : string) (amountStaked : Z) :
  intValued (stakeBalances b) →
  ∃ total current,
    getTotalStake b = Int total
    ∧ amountGoldStaked b addr = Int current
    ∧ stakeBalances (stakeGold addr amountStaked b) !! addr = Some (Int (current + amountStaked))
    ∧ getTotalStake (stakeGold addr amountStaked b) = Int (total + amountStaked)
    ∧ intValued (stakeBalances (stakeGold addr amountStaked b))
    ∧ (∀ a, a ≠ addr →
         stakeBalances (stakeGold addr amountStaked b) !! a = stakeBalances b !! a)
    ∧ balances (stakeGold addr amountStaked b) = balances b
    ∧ unstakingEvents (stakeGold addr amountStaked b) = unstakingEvents b
    ∧ accumPower (stakeGold addr amountStaked b) = accumPower b.
Proof.
  intros Hint. unfold stakeGold, getTotalStake, amountGoldStaked. simpl.
  destruct (sumValues_insert_int (stakeBalances b) addr 0 Hint)
    as (total & current & Htotal & Hcurrent & _).
  exists total, current. rewrite Hcurrent. simpl.
  destruct (sumValues_insert_int (stakeBalances b) addr (current + amountStaked) Hint)
    as (total' & current' & Htotal' & Hcurrent' & ->).
  rewrite Htotal in Htotal'. rewrite Hcurrent in Hcurrent'.
  injection Htotal' as <-. injection Hcurrent' as <-.
  split; [done|]. split; [done|]. split; [apply lookup_insert_eq|].
  split; [f_equal; lia|]. split; [by apply intValued_insert|].
  split; [|done]. intros a Ha. by rewrite lookup_insert_ne.
Qed.

Lemma stakeGold_total_witness :
  intValued (stakeBalances demoBlock)
  ∧ stakeBalances (stakeGold "dave" 7 demoBlock) !! "dave" = Some (Int 7)
  ∧ getTotalStake (stakeGold "dave" 7 demoBlock) = Int 207.
Proof.
  assert (intValued (stakeBalances demoBlock)) as Hint by run.
  split; [exact Hint|].
  destruct (stakeGold_total demoBlock "dave" 7 Hint)
    as (total & current & Htotal & Hcurrent & Hstake & Hsum & _).
  assert (total = 200) as -> by (vm_compute in Htotal; congruence).
  assert (current = 0) as -> by (vm_compute in Hcurrent; congruence).
  split; [exact Hstake|exact Hsum].
Defined.

Lemma foldl_releaseStake_total (q : list UnstakeEvent) : ∀ sb : gmap string num,
  intValued sb →
  Forall (λ ev, is_Some (sb !! clientID ev)) q →
  ∃ total, sumValues sb = Int total
           ∧ sumValues (foldl releaseStake sb q) = Int (total - releasedAmount q)
           ∧ intValued (foldl releaseStake sb q)
           ∧ ∀ a, is_Some (foldl releaseStake sb q !! a) ↔ is_Some (sb !! a).
Proof.
  induction q as [|ev q IH]; intros sb Hint Hq; simpl.
  - destruct (sumValues_int _ Hint) as [total Htotal]. exists total.
    split; [done|]. split; [rewrite Htotal; f_equal; lia|]. done.
  - apply Forall_cons in Hq as [[v Hev] Hq].
    destruct (intValued_lookup _ _ _ Hint Hev) as [s ->].
    assert (releaseStake sb ev = <[clientID ev := Int (s - amount ev)]> sb) as Hrel.
    { unfold releaseStake. by rewrite Hev. }
    destruct (sumValues_insert_int sb (clientID ev) (s - amount ev) Hint)
      as (total & old & Htotal & Hold & Hsum).
    rewrite Hev in Hold. injection Hold as <-.
    assert (∀ a, is_Some (releaseStake sb ev !! a) ↔ is_Some (sb !! a)) as Hdom.
    { intros a. rewrite Hrel. destruct (decide (clientID ev = a)) as [<-|Hne].
      - rewrite lookup_insert_eq, Hev. split; eauto.
      - by rewrite lookup_insert_ne. }
    destruct (IH (releaseStake sb ev)) as (total' & Htotal' & Hsum' & Hint' & Hdom').
    + rewrite Hrel. by apply intValued_insert.
    + eapply Forall_impl; [exact Hq|]. intros ev' Hev'. by apply Hdom.
    + exists total. split; [done|]. rewrite Hrel in Htotal'.
      rewrite Hsum in Htotal'. injection Htotal' as <-.
      split; [rewrite Hsum'; f_equal; lia|]. split; [done|].
      intros a. by rewrite Hdom', Hdom.
Qed.

(** X2. When the unstaking events of the height of a block are handled and
    every address in them has a stake, the total stake falls by the sum of
    their amounts, the stakes stay integers, and no address gains or loses
    its entry. *)
Theorem handleUnstakingEvents_total (b : StakeBlock) (q : list UnstakeEvent) :
  intValued (stakeBalances b) →
  unstakingEvents b !! inl (chainLength b) = Some q →
  Forall (λ ev, is_Some (stakeBalances b !! clientID ev)) q →
  ∃ total,
    getTotalStake b = Int total
    ∧ getTotalStake (handleUnstakingEvents b) = Int (total - releasedAmount q)
    ∧ intValued (stakeBalances (handleUnstakingEvents b))
    ∧ ∀ a, is_Some (stakeBalances (handleUnstakingEvents b) !! a)
           ↔ is_Some (stakeBalances b !! a).
Proof.
  intros Hint Hq Hknown.
  destruct (handleUnstakingEvents_due b q Hq) as [Hstake _].
  unfold getTotalStake. rewrite Hstake.
  by apply foldl_releaseStake_total.
Qed.

Lemma handleUnstakingEvents_total_witness :
  intValued (stakeBalances demoReleaseBlock)
  ∧ unstakingEvents demoReleaseBlock !! inl (chainLength demoReleaseBlock)
    = Some [{| clientID := "alice"; amount := 30 |}]
  ∧ getTotalStake demoReleaseBlock = Int 200
  ∧ getTotalStake (handleUnstakingEvents demoReleaseBlock) = Int 170.
Proof.
  assert (intValued (stakeBalances demoReleaseBlock)) as Hint by run.
  assert (unstakingEvents demoReleaseBlock !! inl (chainLength demoReleaseBlock)
          = Some [{| clientID := "alice"; amount := 30 |}]) as Hq
    by (vm_compute; reflexivity).
  assert (Forall (λ ev, is_Some (stakeBalances demoReleaseBlock !! clientID ev))
            [{| clientID := "alice"; amount := 30 |}]) as Hknown by run.
  destruct (handleUnstakingEvents_total demoReleaseBlock _ Hint Hq Hknown)
    as (total & Htotal & Hsum & _).
  assert (total = 200) as -> by (vm_compute in Htotal; congruence).
  split; [exact Hint|]. split; [exact Hq|]. split; [exact Htotal|]. exact Hsum.
Defined.

Lemma pendingAhead_lookup b k q :
  pendingAhead b → unstakingEvents b !! k = Some q → ∃ h, k = inl h ∧ chainLength b < h.
Proof.
  intros Hb Hk. specialize (Hb k q Hk). simpl in Hb.
  destruct k as [h|a]; [eauto|done].
Qed.

Lemma pendingAhead_no_address b a : pendingAhead b → unstakingEvents b !! inr a = None.
Proof.
  intros Hb. destruct (unstakingEvents b !! inr a) as [q|] eqn:Hq; [|done].
  by destruct (pendingAhead_lookup _ _ _ Hb Hq) as (h & ? & _).
Qed.

Lemma pendingAhead_not_due b h :
  pendingAhead b → h ≤ chainLength b → unstakingEvents b !! inl h = None.
Proof.
  intros Hb Hh. destruct (unstakingEvents b !! inl h) as [q|] eqn:Hq; [|done].
  destruct (pendingAhead_lookup _ _ _ Hb Hq) as (h' & [= <-] & ?). lia.
Qed.

Lemma slash_unstakingEvents_eq cheaterAddr b :
  unstakingEvents (slash cheaterAddr b) = delete (inr cheaterAddr) (unstakingEvents b).
Proof. reflexivity. Qed.

Lemma slash_chainLength cheaterAddr b :
  chainLength (slash cheaterAddr b) = chainLength b.
Proof. reflexivity. Qed.

Lemma punishCheater_cases `{Utils} msg1 msg2 b :
  punishCheater msg1 msg2 b = b
  ∨ punishCheater msg1 msg2 b = slash (Msg.from msg1) b.
Proof.
  unfold punishCheater.
  destruct (Msg.block msg1);
    match goal with |- context [if ?c then _ else _] => destruct c end; auto.
Qed.

(** X3. The pending unstaking events of a block stay ahead of it: if every
    queue is filed under a height above the height of the block, this is
    so again in the next block and after staking, unstaking, slashing and
    the update of the accumulated power.  In such a block no event is left
    for the height of the block or below, and slashing removes no queue. *)
Theorem pendingAhead_preserved `{Utils} (b : StakeBlock) :
  pendingAhead b →
  (∀ rewardAddr', pendingAhead (newStakeBlock rewardAddr' b))
  ∧ (∀ addr amountStaked, pendingAhead (stakeGold addr amountStaked b))
  ∧ (∀ addr amountUnstaked, pendingAhead (unstakeGold addr amountUnstaked b))
  ∧ (∀ msg1 msg2, pendingAhead (punishCheater msg1 msg2 b))
  ∧ (∀ proposerAddr, pendingAhead (updateAccumPower proposerAddr b))
  ∧ handleUnstakingEvents b = b
  ∧ (∀ msg1 msg2, unstakingEvents (punishCheater msg1 msg2 b) = unstakingEvents b).
Proof.
  intros Hb. split; [|split; [|split; [|split; [|split; [|split]]]]].
  - intros rewardAddr' k q. unfold newStakeBlock.
    set (d := {| rewardAddr := rewardAddr'; chainLength := chainLength b + 1;
                 balances := balances b; stakeBalances := stakeBalances b;
                 unstakingEvents := unstakingEvents b; accumPower := accumPower b |}).
    rewrite handleUnstakingEvents_chainLength. simpl.
    destruct (decide (k = inl (chainLength b + 1))) as [->|Hne].
    + unfold handleUnstakingEvents. simpl.
      destruct (unstakingEvents b !! inl (chainLength b + 1)) eqn:Hdue; simpl.
      * by rewrite lookup_delete_eq.
      * by rewrite Hdue.
    + rewrite handleUnstakingEvents_other by done. simpl. intros Hk.
      destruct (pendingAhead_lookup _ _ _ Hb Hk) as (h & -> & Hh).
      assert (h ≠ chainLength b + 1) by congruence. lia.
  - intros addr amountStaked. exact Hb.
  - intros addr amountUnstaked k q. unfold unstakeGold. simpl.
    rewrite lookup_insert_Some. intros [[<- _]|[_ Hk]].
    + unfold UNSTAKE_DELAY. lia.
    + exact (Hb k q Hk).
  - intros msg1 msg2.
    destruct (punishCheater_cases msg1 msg2 b) as [->| ->]; [exact Hb|].
    intros k q. rewrite slash_unstakingEvents_eq, slash_chainLength.
    rewrite lookup_delete_Some. intros [_ Hk]. exact (Hb k q Hk).
  - intros proposerAddr. exact Hb.
  - apply handleUnstakingEvents_idle. apply pendingAhead_not_due; [done|lia].
  - intros msg1 msg2.
    destruct (punishCheater_cases msg1 msg2 b) as [->| ->]; [done|].
    rewrite slash_unstakingEvents_eq. apply delete_id.
    by apply pendingAhead_no_address.
Qed.

Lemma pendingAhead_preserved_witness :
  pendingAhead demoBlock
  ∧ pendingAhead (newStakeBlock "bob" (unstakeGold "bob" 20 demoBlock)).
Proof.
  assert (pendingAhead demoBlock) as Hb by run.
  split; [exact Hb|].
  destruct (pendingAhead_preserved (H:=demoUtils) demoBlock Hb) as (_ & _ & Hunstake & _).
  destruct (pendingAhead_preserved (H:=demoUtils) _ (Hunstake "bob" 20)) as (Hnext & _).
  exact (Hnext "bob").
Defined.

(** A chain of blocks without transactions and without events due on the
    way keeps the ledger of its first block. *)
Lemma descendant_idle n : ∀ b,
  (∀ k, chainLength b < k ≤ chainLength b + Z.of_nat n → unstakingEvents b !! inl k = None) →
  stakeBalances (descendant n b) = stakeBalances b
  ∧ unstakingEvents (descendant n b) = unstakingEvents b
  ∧ balances (descendant n b) = balances b
  ∧ accumPower (descendant n b) = accumPower b.
Proof.
  induction n as [|n IH]; intros b Hidle.
  - by rewrite descendant_0.
  - destruct (IH b) as (Hs & He & Hb & Hp); [intros k Hk; apply Hidle; lia|].
    pose proof (descendant_chainLength n b) as Hn.
    rewrite descendant_succ.
    set (d := descendant n b) in *. clearbody d.
    unfold newStakeBlock. rewrite handleUnstakingEvents_idle; simpl.
    + done.
    + rewrite He, Hn. apply Hidle. lia.
Qed.

Lemma newStakeBlock_due rewardAddr' d q :
  unstakingEvents d !! inl (chainLength d + 1) = Some q →
  stakeBalances (newStakeBlock rewardAddr' d) = foldl releaseStake (stakeBalances d) q
  ∧ unstakingEvents (newStakeBlock rewardAddr' d)
    = delete (inl (chainLength d + 1)) (unstakingEvents d).
Proof.
  intros Hq. unfold newStakeBlock, handleUnstakingEvents. simpl. by rewrite Hq.
Qed.

(** X4. Staking an amount and unstaking it again in a block gives, 35 blocks
    later, the stake balances and the pending events of before, when the
    address had a stake and no other event falls due on the way; in the 34
    blocks before that the amount is still part of the stake. *)
Theorem stake_unstake_round_trip (b : StakeBlock) (addr : string) (amount' stake : Z) :
  stakeBalances b !! addr = Some (Int stake) →
  (∀ k, chainLength b < k ≤ chainLength b + 35 → unstakingEvents b !! inl k = None) →
  let b1 := unstakeGold addr amount' (stakeGold addr amount' b) in
  (∀ n, (n < 35)%nat →
     stakeBalances (descendant n b1) !! addr = Some (Int (stake + amount')))
  ∧ stakeBalances (descendant 35 b1) = stakeBalances b
  ∧ unstakingEvents (descendant 35 b1) = unstakingEvents b.
Proof.
  intros Hstake Hidle b1.
  set (b0 := stakeGold addr amount' b).
  set (ev := {| clientID := addr; amount := amount' |}).
  assert (stakeBalances b0 = <[addr := Int (stake + amount')]> (stakeBalances b)) as Hs0.
  { unfold b0, stakeGold, amountGoldStaked. simpl. by rewrite Hstake. }
  assert (unstakingEvents b1
          = <[inl (chainLength b + 35) := [ev]]> (unstakingEvents b0)) as Hev.
  { unfold b1, unstakeGold. simpl. unfold UNSTAKE_DELAY.
    rewrite (Hidle (chainLength b + 35)) by lia. done. }
  assert (∀ n, (n < 35)%nat →
    stakeBalances (descendant n b1) = stakeBalances b0
    ∧ unstakingEvents (descendant n b1)
      = <[inl (chainLength b + 35) := [ev]]> (unstakingEvents b)) as Hchain.
  { intros n Hn.
    destruct (descendant_pending n b0 b1 (chainLength b + 35) [ev])
      as (Hs & _ & _ & He & _); try done; [simpl; lia|].
    destruct (descendant_idle n b0) as (Hs' & He' & _).
    { intros k Hk. apply Hidle. simpl in Hk. lia. }
    rewrite Hs, He, Hs', He'. done. }
  split.
  { intros n Hn. destruct (Hchain n Hn) as [-> _]. rewrite Hs0.
    apply lookup_insert_eq. }
  destruct (Hchain 34%nat ltac:(lia)) as [Hs He].
  pose proof (descendant_chainLength 34 b1) as Hn.
  change (chainLength b1) with (chainLength b) in Hn.
  rewrite (descendant_succ 34).
  set (d := descendant 34 b1) in *. clearbody d.
  destruct (newStakeBlock_due (rewardAddr d) d [ev]) as [-> ->].
  { rewrite He, Hn. replace (chainLength b + Z.of_nat 34 + 1) with (chainLength b + 35) by lia.
    apply lookup_insert_eq. }
  rewrite Hs, He, Hn, Hs0.
  replace (chainLength b + Z.of_nat 34 + 1) with (chainLength b + 35) by lia.
  split.
  - simpl. unfold releaseStake. simpl. rewrite lookup_insert_eq. simpl.
    rewrite insert_insert_eq.
    replace (stake + amount' + - amount') with stake by lia.
    by apply insert_id.
  - apply delete_insert_id. apply Hidle. lia.
Qed.

Lemma stake_unstake_round_trip_witness :
  let b1 := unstakeGold "bob" 20 (stakeGold "bob" 20 demoShareBlock) in
  stakeBalances demoShareBlock !! "bob" = Some (Int 48)
  ∧ stakeBalances (descendant 34 b1) !! "bob" = Some (Int 68)
  ∧ stakeBalances (descendant 35 b1) = stakeBalances demoShareBlock.
Proof.
  intros b1. subst b1.
  assert (stakeBalances demoShareBlock !! "bob" = Some (Int 48)) as Hstake
    by (vm_compute; reflexivity).
  assert (∀ k, chainLength demoShareBlock < k ≤ chainLength demoShareBlock + 35 →
               unstakingEvents demoShareBlock !! inl k = None) as Hidle
    by (intros k _; apply lookup_empty).
  destruct (stake_unstake_round_trip demoShareBlock "bob" 20 48 Hstake Hidle)
    as (Hwait & Hback & _).
  split; [exact Hstake|]. split; [exact (Hwait 34%nat ltac:(lia))|exact Hback].
Defined.

(** ** Slashing, further *)

(** X5. [slash] credits every validator that remains its share of the
    seized stake, as [share] computes it, and touches no other balance than
    these and that of the cheater; the other stakes are as before, and the
    total stake falls by the stake of the cheater. *)
Theorem slash_effects (cheaterAddr : string) (b : StakeBlock) :
  let stakeAmount := amountGoldStaked b cheaterAddr in
  let after := slash cheaterAddr b in
  (∀ a, a ≠ cheaterAddr → stakeBalances after !! a = stakeBalances b !! a)
  ∧ (∀ a amountStaked, a ≠ cheaterAddr → stakeBalances b !! a = Some amountStaked →
       balances after !! a
       = Some (nadd (balanceOf b a) (share stakeAmount amountStaked (getTotalStake after))))
  ∧ (∀ a, a ≠ cheaterAddr → stakeBalances b !! a = None →
       balances after !! a = balances b !! a)
  ∧ (intValued (stakeBalances b) →
     ∃ total seized, getTotalStake b = Int total ∧ stakeAmount = Int seized
                     ∧ getTotalStake after = Int (total - seized)).
Proof.
  intros stakeAmount after. subst after stakeAmount.
  destruct (slash_cheater cheaterAddr b) as (Hstake & _ & _).
  split; [|split; [|split]].
  - intros a Ha. rewrite Hstake. by apply lookup_delete_ne.
  - intros a amountStaked Ha Hs. unfold getTotalStake. rewrite Hstake.
    unfold slash. simpl.
    rewrite (reward_fold_share _ _ _ _ a amountStaked)
      by (by rewrite lookup_delete_ne).
    rewrite lookup_insert_ne by done. done.
  - intros a Ha Hs. unfold slash. simpl.
    rewrite reward_fold_other by (by rewrite lookup_delete_ne).
    by rewrite lookup_insert_ne.
  - intros Hint. unfold getTotalStake, amountGoldStaked. rewrite Hstake.
    destruct (stakeBalances b !! cheaterAddr) as [v|] eqn:Hc.
    + destruct (intValued_lookup _ _ _ Hint Hc) as [seized ->].
      destruct (sumValues_int _ (intValued_delete _ cheaterAddr Hint)) as [rest Hrest].
      exists (rest + seized), seized.
      rewrite (sumValues_delete _ _ _ Hc), Hrest. simpl.
      split; [done|]. split; [done|]. f_equal. lia.
    + destruct (sumValues_int _ Hint) as [total Htotal].
      exists total, 0. rewrite delete_id by done. rewrite Htotal.
      split; [done|]. split; [done|]. f_equal. lia.
Qed.

Lemma slash_effects_witness :
  intValued (stakeBalances demoBlock)
  ∧ getTotalStake (slash "alice" demoBlock) = Int 100
  ∧ balances (slash "alice" demoBlock) !! "bob" = Some (Int 1050).
Proof.
  assert (intValued (stakeBalances demoBlock)) as Hint by run.
  destruct (slash_effects "alice" demoBlock) as (_ & Hshare & _ & Htotal).
  destruct (Htotal Hint) as (total & seized & Ht & Hs & Hafter).
  assert (total = 200) as -> by (vm_compute in Ht; congruence).
  assert (seized = 100) as -> by (vm_compute in Hs; congruence).
  split; [exact Hint|]. split; [exact Hafter|].
  rewrite (Hshare "bob" (Int 50)); [vm_compute; reflexivity|done|vm_compute; reflexivity].
Defined.

(** X6. [punishCheater] leaves the block as it is unless the two messages
    are different messages of one sender for one height and round, each
    with a signature. *)
Theorem punishCheater_no_evidence `{Utils} (msg1 msg2 : Msg.t) (b : StakeBlock) :
  msg1 = msg2
  ∨ Msg.from msg1 ≠ Msg.from msg2
  ∨ Msg.height msg1 ≠ Msg.height msg2
  ∨ Msg.round msg1 ≠ Msg.round msg2
  ∨ Msg.sig msg1 = None
  ∨ Msg.sig msg2 = None →
  punishCheater msg1 msg2 b = b.
Proof.
  intros Hno. unfold punishCheater.
  destruct (Msg.block msg1) eqn:Hblock;
    match goal with |- (if ?c then _ else _) = _ => destruct c eqn:Hc end;
    try done; exfalso;
    repeat (apply andb_true_iff in Hc as [Hc ?]);
    repeat match goal with
           | H : bool_decide _ = true |- _ => apply bool_decide_eq_true in H
           end;
    simpl in *.
  - destruct Hno as [->|[?|[?|[?|[Hs|Hs]]]]]; try done.
    + unfold Proposal.hasValidSignature in *. simpl in *. by rewrite Hs in *.
    + unfold Proposal.hasValidSignature in *. simpl in *. by rewrite Hs in *.
  - destruct Hno as [->|[?|[?|[?|[Hs|Hs]]]]]; try done.
    + unfold Vote.hasValidSignature in *. simpl in *. by rewrite Hs in *.
    + unfold Vote.hasValidSignature in *. simpl in *. by rewrite Hs in *.
Qed.

Lemma punishCheater_no_evidence_witness :
  let msg := demoMsg "alice" 10 1 PREVOTE "X" in
  punishCheater (H:=demoUtils) msg msg demoBlock = demoBlock.
Proof.
  intros msg.
  exact (punishCheater_no_evidence (H:=demoUtils) msg msg demoBlock (or_introl eq_refl)).
Defined.

(** ** Votes, further *)

Lemma Vote_new_toMsg (v : Vote.t) : Vote.new (Vote.toMsg v) = v.
Proof. by destruct v. Qed.

(** X7. A vote that [makeVote] makes for a voter whose address matches its
    public key and whose signatures verify has a valid signature; it is
    valid for the voter and for every validator that is not ahead of the
    voter in height or round, also after it has been sent as a plain object
    and rebuilt with [new Vote]. *)
Theorem makeVote_valid `{Utils} (voter : Node.t) (type blockID : string) :
  addressMatchesKey (Node.address voter) (Node.keyPair_public voter) = true →
  (∀ msg, verifySignature (Node.keyPair_public voter) msg
            (sign (Node.keyPair_private voter) msg) = true) →
  let vote := makeVote voter type blockID in
  Vote.from vote = Node.address voter
  ∧ Vote.blockID vote = blockID
  ∧ Vote.hasValidSignature vote = true
  ∧ Vote.new (Vote.toMsg vote) = vote
  ∧ ∀ height round, height ≤ Node.height voter → round ≤ Node.round voter →
      Vote.isValid height round (Vote.new (Vote.toMsg vote)) = true.
Proof.
  intros Hkey Hsig vote.
  assert (Vote.hasValidSignature vote = true) as Hvalid.
  { unfold Vote.hasValidSignature, vote, makeVote, signVote. simpl.
    rewrite Hkey. simpl. apply Hsig. }
  split; [done|]. split; [done|]. split; [done|].
  split; [apply Vote_new_toMsg|].
  intros height round Hh Hr. rewrite Vote_new_toMsg.
  unfold Vote.isValid. rewrite Hvalid. simpl.
  change (Vote.height vote) with (Node.height voter).
  change (Vote.round vote) with (Node.round voter).
  destruct (Z.gtb_spec height (Node.height voter)); [lia|].
  destruct (Z.gtb_spec round (Node.round voter)); [lia|]. done.
Qed.

Lemma makeVote_valid_witness :
  addressMatchesKey (Utils:=demoUtils) (Node.address demoNode) (Node.keyPair_public demoNode)
  = true
  ∧ Vote.isValid (H:=demoUtils) 10 1
      (Vote.new (Vote.toMsg (makeVote (H:=demoUtils) demoNode PREVOTE "X"))) = true.
Proof.
  assert (addressMatchesKey (Utils:=demoUtils) (Node.address demoNode)
            (Node.keyPair_public demoNode) = true) as Hkey by (vm_compute; reflexivity).
  assert (∀ msg, verifySignature (Utils:=demoUtils) (Node.keyPair_public demoNode) msg
                   (sign (Utils:=demoUtils) (Node.keyPair_private demoNode) msg) = true)
    as Hsig by (intros msg; simpl; by apply bool_decide_eq_true_2).
  split; [exact Hkey|].
  destruct (makeVote_valid (H:=demoUtils) demoNode PREVOTE "X" Hkey Hsig)
    as (_ & _ & _ & _ & Hvalid).
  apply Hvalid; simpl; lia.
Defined.

(** X8. [fresherThan] is a strict order on votes: no vote is fresher than
    itself, the relation is transitive, two votes are never each fresher
    than the other, and two votes of which neither is fresher have the same
    height and round. *)
Theorem fresherThan_strict_order :
  (∀ v, Vote.fresherThan v v = false)
  ∧ (∀ a b c, Vote.fresherThan a b = true → Vote.fresherThan b c = true →
              Vote.fresherThan a c = true)
  ∧ (∀ a b, Vote.fresherThan a b = true → Vote.fresherThan b a = false)
  ∧ (∀ a b, Vote.fresherThan a b = false → Vote.fresherThan b a = false →
            Vote.height a = Vote.height b ∧ Vote.round a = Vote.round b).
Proof.
  split; [|split; [|split]].
  - intros v. destruct (Vote.fresherThan v v) eqn:Hv; [|done].
    apply fresherThan_iff in Hv. lia.
  - intros a b c Hab Hbc. apply fresherThan_iff in Hab, Hbc.
    apply fresherThan_iff. lia.
  - apply fresherThan_asym.
  - intros a b Hab Hba.
    destruct (decide (Vote.height a = Vote.height b ∧ Vote.round a = Vote.round b))
      as [|Hne]; [done|].
    assert (Vote.fresherThan a b = true ∨ Vote.fresherThan b a = true) as [?|?];
      [|congruence..].
    rewrite !fresherThan_iff. lia.
Qed.

(** X9. A vote that is valid for a validator is valid for every validator
    that is not ahead of it in height or round, and whether a commit is
    valid does not depend on the round of the validator. *)
Theorem isValid_monotone `{Utils} (v : Vote.t) (height round : Z) :
  (∀ height' round', Vote.isValid height round v = true →
     height' ≤ height → round' ≤ round → Vote.isValid height' round' v = true)
  ∧ (Vote.type v = Some COMMIT →
     ∀ round', Vote.isValid height round' v = Vote.isValid height round v).
Proof.
  split.
  - intros height' round'. unfold Vote.isValid.
    destruct (Z.gtb_spec height (Vote.height v)); [done|].
    destruct (Z.gtb_spec height' (Vote.height v)); [lia|].
    destruct (Z.gtb_spec round' (Vote.round v)) as [|Hr'];
      destruct (Z.gtb_spec round (Vote.round v));
      destruct (bool_decide (Vote.type v = Some COMMIT)); simpl; try done; lia.
  - intros Hcommit round'. unfold Vote.isValid.
    rewrite bool_decide_eq_true_2 by done. simpl. by rewrite !andb_false_r.
Qed.

Lemma isValid_monotone_witness :
  let commit := makeVote (H:=demoUtils) demoNode COMMIT "X" in
  Vote.type commit = Some COMMIT
  ∧ Vote.isValid (H:=demoUtils) 10 7 commit = true.
Proof.
  intros commit.
  assert (Vote.type commit = Some COMMIT) as Hcommit by reflexivity.
  split; [exact Hcommit|].
  rewrite (proj2 (isValid_monotone (H:=demoUtils) commit 10 1) Hcommit 7).
  vm_compute. reflexivity.
Defined.

(** ** Ballot boxes, further *)

Lemma objSet_Forall {A} (P : string * A → Prop) (o : list (string * A)) k v :
  Forall P o → P (k, v) → Forall P (objSet o k v).
Proof.
  intros Ho Hkv. induction o as [|[k' v'] o IH]; simpl.
  - by apply Forall_singleton.
  - apply Forall_cons in Ho as [Hhd Ho].
    destruct (decide (k' = k)); apply Forall_cons; auto.
Qed.

Lemma objGet_absent {A} (o : list (string * A)) k : k ∉ o.*1 → objGet o k = None.
Proof.
  induction o as [|[k' v] o IH]; csimpl; [done|].
  rewrite not_elem_of_cons. intros [Hne Hk].
  destruct (decide (k' = k)); [congruence|auto].
Qed.

Lemma objSet_absent {A} (o : list (string * A)) k v :
  k ∉ o.*1 → objSet o k v = o ++ [(k, v)].
Proof.
  induction o as [|[k' v'] o IH]; csimpl; [done|].
  rewrite not_elem_of_cons. intros [Hne Hk].
  destruct (decide (k' = k)); [congruence|]. by rewrite IH.
Qed.

Lemma fresherThan_irrefl (v : Vote.t) : Vote.fresherThan v v = false.
Proof.
  destruct (Vote.fresherThan v v) eqn:Hv; [|done].
  apply fresherThan_iff in Hv. lia.
Qed.

(** What [verifyAndVote] returns, case by case. *)
Lemma verifyAndVote_result `{Utils} (this : Node.t) (ballotBox : list (string * Vote.t))
    (m : Msg.t) :
  let vote := Vote.new m in
  verifyAndVote m ballotBox this = (this, ballotBox)
  ∨ (Vote.isValid (Node.height this) (Node.round this) vote = true
     ∧ ∃ this', verifyAndVote m ballotBox this
                = (this', objSet ballotBox (Vote.from vote) vote)
                ∧ Node.height this' = Node.height this
                ∧ Node.round this' = Node.round this
                ∧ Node.currentBlock this' = Node.currentBlock this).
Proof.
  intros vote. subst vote. unfold verifyAndVote.
  destruct (Vote.isValid _ _ _) eqn:Hvalid; simpl; [|by left].
  destruct (objGet ballotBox _) as [currentVote|]; [|right; eauto 10].
  destruct (Vote.fresherThan (Vote.new m) currentVote); [right; eauto 10|].
  destruct (Vote.fresherThan currentVote (Vote.new m)); [by left|].
  case_bool_decide; [by left|]. right. split; [done|].
  eexists. split; [reflexivity|]. done.
Qed.

(** X10. [verifyAndVote] changes at most the entry of the sender of the
    vote and removes no entry, and it leaves the height, the round and the
    block of the validator as they are, whatever the ballot box holds; a
    vote that is not valid changes nothing.  If every vote of the ballot
    box is filed under its sender and valid for the validator, this is so
    afterwards. *)
Theorem verifyAndVote_frame `{Utils} (this : Node.t) (ballotBox : list (string * Vote.t))
    (m : Msg.t) :
  let after := verifyAndVote m ballotBox this in
  (∀ k, k ≠ Msg.from m → objGet after.2 k = objGet ballotBox k)
  ∧ (∀ k, is_Some (objGet ballotBox k) → is_Some (objGet after.2 k))
  ∧ Node.height after.1 = Node.height this
  ∧ Node.round after.1 = Node.round this
  ∧ Node.currentBlock after.1 = Node.currentBlock this
  ∧ (Vote.isValid (Node.height this) (Node.round this) (Vote.new m) = false →
     after = (this, ballotBox))
  ∧ (wellFiled (Node.height this) (Node.round this) ballotBox →
     wellFiled (Node.height after.1) (Node.round after.1) after.2).
Proof.
  intros after. subst after.
  assert (Vote.isValid (Node.height this) (Node.round this) (Vote.new m) = false →
          verifyAndVote m ballotBox this = (this, ballotBox)) as Hinvalid.
  { intros Hv. unfold verifyAndVote. by rewrite Hv. }
  destruct (verifyAndVote_result this ballotBox m) as [->|(Hvalid & this' & -> & Hh & Hr & Hb)].
  - repeat split; try done.
  - simpl. rewrite Hh, Hr. split; [|split].
    + intros k Hk. rewrite objGet_objSet. by rewrite decide_False.
    + intros k Hk. rewrite objGet_objSet. destruct (decide _); [eauto|done].
    + repeat split; try done.
      * intros Hv. congruence.
      * intros Hfiled. by apply objSet_Forall.
Qed.

(** The ballot box of the example holds votes of round 1: at round 2 they
    are no longer valid for the validator, and the frame holds all the
    same. *)
Lemma verifyAndVote_frame_witness :
  let m := demoMsg "carol" 10 2 PREVOTE "Y" in
  let this := {| Node.address := Node.address demoNode;
                 Node.keyPair_public := Node.keyPair_public demoNode;
                 Node.keyPair_private := Node.keyPair_private demoNode;
                 Node.nonce := Node.nonce demoNode;
                 Node.superAvailableGold := Node.superAvailableGold demoNode;
                 Node.lastConfirmedBlock := Node.lastConfirmedBlock demoNode;
                 Node.pendingOutgoingTransactions :=
                   Node.pendingOutgoingTransactions demoNode;
                 Node.net := Node.net demoNode;
                 Node.transactions := Node.transactions demoNode;
                 Node.height := 10;
                 Node.round := 2;
                 Node.currentBlock := Node.currentBlock demoNode;
                 Node.roundAccumPower := Node.roundAccumPower demoNode |} in
  ¬ wellFiled (H:=demoUtils) (Node.height this) (Node.round this) demoBallotBox
  ∧ objGet (verifyAndVote (H:=demoUtils) m demoBallotBox this).2 "alice"
    = objGet demoBallotBox "alice"
  ∧ objGet (verifyAndVote (H:=demoUtils) m demoBallotBox this).2 "carol"
    = Some (demoVote "carol" 10 2 PREVOTE "Y").
Proof.
  intros m this.
  split.
  { intros Hfiled. apply Forall_cons in Hfiled as [[_ Hvalid] _].
    vm_compute in Hvalid. discriminate. }
  destruct (verifyAndVote_frame (H:=demoUtils) this demoBallotBox m) as (Hother & _).
  split; [apply Hother; done|]. vm_compute. reflexivity.
Defined.

(** X11. Delivering a vote a second time has no effect: after
    [verifyAndVote] has handled a vote, handling the same vote again leaves
    the ballot box and the validator as they are, so that no second
    evidence transaction is posted. *)
Theorem verifyAndVote_idempotent `{Utils} (this : Node.t)
    (ballotBox : list (string * Vote.t)) (m : Msg.t) :
  let after := verifyAndVote m ballotBox this in
  verifyAndVote m after.2 after.1 = after.
Proof.
  intros after. subst after.
  destruct (verifyAndVote_result this ballotBox m) as [Hsame|(Hvalid & this' & Hnew & Hh & Hr & _)].
  - rewrite Hsame. exact Hsame.
  - rewrite Hnew. simpl. unfold verifyAndVote at 1.
    rewrite Hh, Hr, Hvalid. simpl.
    rewrite objGet_objSet. rewrite decide_True by done.
    rewrite fresherThan_irrefl. by rewrite bool_decide_eq_true_2.
Qed.

(** ** Tallying, further *)

Lemma nadd_NaN_r x : nadd x NaN = NaN.
Proof. by destruct x as [?|[]|]. Qed.

Lemma sumValues_NaN (m : gmap string num) a : m !! a = Some NaN → sumValues m = NaN.
Proof. intros Ha. rewrite (sumValues_delete _ _ _ Ha). apply nadd_NaN_r. Qed.

Lemma gtVotesNeeded_NaN currentVotes : gtVotesNeeded currentVotes NaN = false.
Proof. by destruct currentVotes as [?|[]|]. Qed.

Lemma countVote_NaN this (ballotBox : list (string * Vote.t)) : ∀ st,
  st.2 = None → (foldl (countVote this NaN) st ballotBox).2 = None.
Proof.
  induction ballotBox as [|e l IH]; intros st Hst; [done|]. simpl.
  apply IH. unfold countVote.
  destruct (Vote.isStale _ _ _); [done|]. by rewrite gtVotesNeeded_NaN.
Qed.

(** X12. Once the stake of some address is NaN, as [handleUnstakingEvents]
    leaves it for an address without stake, the total stake is NaN and
    [countVotes] finds no winner, whatever the votes. *)
Theorem countVotes_NaN_stake (this : Node.t) (ballotBox : list (string * Vote.t))
    (addr : string) :
  stakeBalances (Node.currentBlock this) !! addr = Some NaN →
  getTotalStake (Node.currentBlock this) = NaN
  ∧ countVotes this ballotBox = None.
Proof.
  intros Hnan.
  assert (getTotalStake (Node.currentBlock this) = NaN) as Htotal
    by (by apply (sumValues_NaN _ addr)).
  split; [done|]. unfold countVotes. rewrite Htotal. by apply countVote_NaN.
Qed.

Lemma countVotes_NaN_stake_witness :
  let this :=
    {| Node.address := "bob"; Node.keyPair_public := "bob"; Node.keyPair_private := "bob";
       Node.nonce := 0; Node.superAvailableGold := Int 1000;
       Node.lastConfirmedBlock := demoBlock; Node.pendingOutgoingTransactions := ∅;
       Node.net := []; Node.transactions := Some []; Node.height := 40; Node.round := 1;
       Node.currentBlock := handleUnstakingEvents demoDueBlock;
       Node.roundAccumPower := ∅ |} in
  stakeBalances (Node.currentBlock this) !! "alice" = Some NaN
  ∧ countVotes this
      [("bob", demoVote "bob" 40 1 PREVOTE "X"); ("carol", demoVote "carol" 40 1 PREVOTE "X")]
    = None.
Proof.
  intros this.
  assert (stakeBalances (Node.currentBlock this) !! "alice" = Some NaN) as Hnan
    by (vm_compute; reflexivity).
  split; [exact Hnan|].
  exact (proj2 (countVotes_NaN_stake this _ "alice" Hnan)).
Defined.

Lemma countVote_winner this totalStake (ballotBox : list (string * Vote.t)) w : ∀ st,
  (foldl (countVote this totalStake) st ballotBox).2 = Some w →
  st.2 = Some w
  ∨ ∃ entry, entry ∈ ballotBox ∧ Vote.blockID entry.2 = w
             ∧ Vote.isStale entry.2 (Node.height this) (Node.round this) = false.
Proof.
  induction ballotBox as [|e l IH]; intros st Hw; [by left|]. simpl in Hw.
  destruct (IH _ Hw) as [Hst|(entry & Hin & Hid & Hstale)].
  - unfold countVote in Hst.
    destruct (Vote.isStale e.2 _ _) eqn:Hstale; [by left|].
    destruct (gtVotesNeeded _ _); simpl in Hst; [|by left].
    right. exists e. split; [by left|]. split; [|done].
    case_bool_decide; congruence.
  - right. exists entry. split; [by right|done].
Qed.

(** X13. The block that [countVotes] returns is the block of a vote in the
    ballot box: no block wins without a vote for it, whatever the stakes
    are. *)
Theorem countVotes_winner_voted (this : Node.t) (ballotBox : list (string * Vote.t))
    (w : string) :
  countVotes this ballotBox = Some w →
  ∃ voterAddr vote, (voterAddr, vote) ∈ ballotBox ∧ Vote.blockID vote = w.
Proof.
  intros Hw.
  destruct (countVote_winner _ _ _ _ _ Hw) as [?|([voterAddr vote] & Hin & Hid & _)];
    [done|eauto].
Qed.

Lemma countVotes_winner_voted_witness :
  countVotes demoNode demoBallotBox = Some "X"
  ∧ ∃ voterAddr vote, (voterAddr, vote) ∈ demoBallotBox ∧ Vote.blockID vote = "X".
Proof.
  assert (countVotes demoNode demoBallotBox = Some "X") as Hw by (vm_compute; reflexivity).
  split; [exact Hw|]. exact (countVotes_winner_voted demoNode demoBallotBox "X" Hw).
Defined.

Lemma tallyZ_app this (l l' : list (string * Vote.t)) blockID :
  tallyZ this (l ++ l') blockID = tallyZ this l blockID + tallyZ this l' blockID.
Proof. induction l as [|e l IH]; simpl; lia. Qed.

(** X14. With non-negative integer stakes, a block that has won keeps
    winning when votes of further voters arrive: if [countVotes] returns a
    block for a ballot box, it returns that block for the ballot box with
    entries of other voters added. *)
Theorem countVotes_stable (this : Node.t) (ballotBox more : list (string * Vote.t))
    (w : string) :
  nonnegValued (stakeBalances (Node.currentBlock this)) →
  NoDup (ballotBox ++ more).*1 →
  countVotes this ballotBox = Some w →
  countVotes this (ballotBox ++ more) = Some w.
Proof.
  intros Hstake Hnd Hw.
  destruct (nonnegValued_sum _ Hstake) as (totalStake & Htotal & _).
  apply (countVotes_iff this totalStake Hstake Htotal); [done|].
  apply (countVotes_Some this totalStake Hstake Htotal) in Hw.
  rewrite tallyZ_app.
  pose proof (tallyZ_nonneg this Hstake more w). lia.
Qed.

Lemma countVotes_stable_witness :
  let more := [("carol", demoVote "carol" 10 1 PREVOTE "Y")] in
  nonnegValued (stakeBalances (Node.currentBlock demoNode))
  ∧ NoDup (demoBallotBox ++ more).*1
  ∧ countVotes demoNode demoBallotBox = Some "X"
  ∧ countVotes demoNode (demoBallotBox ++ more) = Some "X".
Proof.
  intros more.
  assert (nonnegValued (stakeBalances (Node.currentBlock demoNode))) as Hstake by run.
  assert (NoDup (demoBallotBox ++ more).*1) as Hnd by run.
  assert (countVotes demoNode demoBallotBox = Some "X") as Hw by (vm_compute; reflexivity).
  split; [exact Hstake|]. split; [exact Hnd|]. split; [exact Hw|].
  exact (countVotes_stable demoNode demoBallotBox more "X" Hstake Hnd Hw).
Defined.

(** ** The choice of the proposer *)

Lemma pickProposer_from (entries : list (string * num)) : ∀ current q,
  Forall (λ entry, isInt entry.2 = true) entries →
  (foldl (λ st entry, if ngt entry.2 st.2 then (Some entry.1, entry.2) else st)
         (current, Int q) entries = (current, Int q)
   ∧ Forall (λ entry, toZ entry.2 ≤ q) entries)
  ∨ ∃ a p before after,
      foldl (λ st entry, if ngt entry.2 st.2 then (Some entry.1, entry.2) else st)
            (current, Int q) entries = (Some a, Int p)
      ∧ entries = before ++ (a, Int p) :: after
      ∧ q < p
      ∧ Forall (λ entry, toZ entry.2 < p) before
      ∧ Forall (λ entry, toZ entry.2 ≤ p) after.
Proof.
  induction entries as [|[a x] l IH]; intros current q Hint; simpl.
  - left. by split.
  - apply Forall_cons in Hint as [Hx Hint]. simpl in Hx.
    destruct x as [p| |]; try discriminate. simpl.
    destruct (Z.ltb_spec q p) as [Hlt|Hge].
    + right. destruct (IH (Some a) p Hint)
        as [[-> Hall]|(a' & p' & before & after & -> & -> & Hp & Hbefore & Hafter)].
      * exists a, p, [], l. repeat split; try done.
      * exists a', p', ((a, Int p) :: before), after. repeat split; try done.
        -- lia.
        -- apply Forall_cons. split; [simpl; lia|done].
    + destruct (IH current q Hint)
        as [[-> Hall]|(a' & p' & before & after & -> & -> & Hp & Hbefore & Hafter)].
      * left. split; [done|]. apply Forall_cons. by split.
      * right. exists a', p', ((a, Int p) :: before), after. repeat split; try done.
        apply Forall_cons. split; [simpl; lia|done].
Qed.

Lemma positive_sum_positive_entry (entries : list (string * num)) :
  0 < foldr (λ entry total, toZ entry.2 + total) 0 entries →
  Exists (λ entry, 0 < toZ entry.2) entries.
Proof.
  induction entries as [|e l IH]; simpl; [lia|]. intros Hsum.
  destruct (Z.ltb_spec 0 (toZ e.2)); [by left|]. right. apply IH. lia.
Qed.

(** X15. Among entries with integer powers, [determineProposer] picks the
    first entry, in the order of the map, whose power is the greatest,
    provided that power is positive, which is so when the sum of the powers
    is positive; when no power is positive the proposer of the round before
    stays. *)
Theorem pickProposer_greatest (entries : list (string * num)) (current : option string) :
  Forall (λ entry, isInt entry.2 = true) entries →
  (Forall (λ entry, toZ entry.2 ≤ 0) entries → pickProposer entries current = (current, Int 0))
  ∧ (Exists (λ entry, 0 < toZ entry.2) entries →
     ∃ a p before after,
       pickProposer entries current = (Some a, Int p)
       ∧ entries = before ++ (a, Int p) :: after
       ∧ 0 < p
       ∧ Forall (λ entry, toZ entry.2 < p) before
       ∧ Forall (λ entry, toZ entry.2 ≤ p) after)
  ∧ (0 < foldr (λ entry total, toZ entry.2 + total) 0 entries →
     Exists (λ entry, 0 < toZ entry.2) entries).
Proof.
  intros Hint. unfold pickProposer.
  destruct (pickProposer_from entries current 0 Hint)
    as [[Hsame Hall]|(a & p & before & after & Hpick & Hsplit & Hp & Hbefore & Hafter)].
  - split; [done|]. split; [|apply positive_sum_positive_entry].
    intros Hex. apply Exists_exists in Hex as (e & Hin & He).
    rewrite Forall_forall in Hall. specialize (Hall e Hin). simpl in *. lia.
  - split; [|split; [|apply positive_sum_positive_entry]].
    + intros Hall. rewrite Forall_forall in Hall.
      assert ((a, Int p) ∈ entries) as Hin
        by (rewrite Hsplit; apply elem_of_app; right; left).
      specialize (Hall _ Hin). simpl in Hall. lia.
    + intros _. exists a, p, before, after. done.
Qed.

Lemma pickProposer_greatest_witness :
  let entries := [("alice", Int 50); ("bob", Int 100); ("carol", Int 100)] in
  Forall (λ entry, isInt entry.2 = true) entries
  ∧ Exists (λ entry, 0 < toZ entry.2) entries
  ∧ pickProposer entries None = (Some "bob", Int 100).
Proof.
  intros entries.
  assert (Forall (λ entry, isInt entry.2 = true) entries) as Hint by run.
  assert (Exists (λ entry, 0 < toZ entry.2) entries) as Hex by run.
  split; [exact Hint|]. split; [exact Hex|].
  destruct (proj1 (proj2 (pickProposer_greatest entries None Hint)) Hex)
    as (a & p & before & after & Hpick & _).
  rewrite Hpick. vm_compute in Hpick. exact (eq_sym Hpick).
Defined.

(** ** The commits of earlier rounds *)

Lemma carryOver_cons e commits (ballotBox : list (string * Vote.t)) :
  carryOver (e :: commits) ballotBox = carryOver commits (objSet ballotBox e.1 e.2).
Proof. reflexivity. Qed.

Lemma objSet_all_fresh {A} (l : list (string * A)) : ∀ o,
  NoDup (o ++ l).*1 → foldl (λ o entry, objSet o entry.1 entry.2) o l = o ++ l.
Proof.
  induction l as [|[k v] l IH]; intros o Hnd.
  - by rewrite app_nil_r.
  - simpl. rewrite fmap_app, fmap_cons in Hnd. simpl in Hnd.
    assert (k ∉ o.*1) as Hk.
    { apply NoDup_app in Hnd as (_ & Hdisj & _). intros Hin.
      apply (Hdisj k Hin). by left. }
    rewrite objSet_absent by done.
    rewrite IH; [by rewrite <-app_assoc|].
    by rewrite fmap_app, fmap_app, <-app_assoc.
Qed.

(** X16. When a new round counts the commits of earlier rounds, every
    voter with a commit has that commit as its vote in the ballot box, the
    votes of the other voters are kept, and the voters stay distinct; into
    an empty ballot box the commits are copied as they are. *)
Theorem carryOver_lookup (commits ballotBox : list (string * Vote.t)) :
  NoDup commits.*1 →
  (∀ k, objGet (carryOver commits ballotBox) k
        = match objGet commits k with
          | Some commit => Some commit
          | None => objGet ballotBox k
          end)
  ∧ (NoDup ballotBox.*1 → NoDup (carryOver commits ballotBox).*1)
  ∧ carryOver commits [] = commits.
Proof.
  intros Hnd. split; [|split].
  - revert ballotBox. induction commits as [|[k' c] commits IH]; intros ballotBox k.
    + done.
    + rewrite carryOver_cons. csimpl in *. apply NoDup_cons in Hnd as [Hk' Hnd].
      rewrite (IH Hnd). destruct (decide (k' = k)) as [->|Hne].
      * rewrite (objGet_absent commits k Hk'). rewrite objGet_objSet.
        by rewrite decide_True.
      * destruct (objGet commits k); [done|]. rewrite objGet_objSet.
        by rewrite decide_False.
  - clear Hnd. revert ballotBox.
    induction commits as [|[k' c] commits IH]; intros ballotBox Hbox; [done|].
    rewrite carryOver_cons. apply IH. by apply objSet_NoDup.
  - by apply (objSet_all_fresh commits []).
Qed.

Lemma carryOver_lookup_witness :
  let commits := [("alice", demoVote "alice" 10 1 COMMIT "X")] in
  NoDup commits.*1
  ∧ objGet (carryOver commits demoBallotBox) "alice" = Some (demoVote "alice" 10 1 COMMIT "X")
  ∧ objGet (carryOver commits demoBallotBox) "bob" = objGet demoBallotBox "bob".
Proof.
  intros commits.
  assert (NoDup commits.*1) as Hnd by run.
  split; [exact Hnd|].
  destruct (carryOver_lookup commits demoBallotBox Hnd) as (Hlook & _).
  split; [rewrite Hlook; reflexivity|rewrite Hlook; reflexivity].
Defined.

(** ** Staking transactions and available gold *)

(** X17. [postStakingTransaction] throws exactly when the amount to stake
    and the fee together exceed the available gold; otherwise the staking
    transaction for the amount is made, signed, recorded as pending and
    broadcast once, and the nonce is incremented. *)
Theorem postStakingTransaction_checks_total `{Utils} (this : Node.t)
    (stakeAmount fee gold : Z) :
  availableGold this = Int gold →
  (postStakingTransaction stakeAmount fee this = Throws ↔ gold < stakeAmount + fee)
  ∧ (stakeAmount + fee ≤ gold →
     ∃ tx this',
       postStakingTransaction stakeAmount fee this = Returns (tx, this')
       ∧ Tx.data tx = STAKE stakeAmount
       ∧ Tx.fee tx = fee
       ∧ Tx.from tx = Node.address this
       ∧ Tx.nonce tx = Node.nonce this
       ∧ Tx.sig tx = Some (sign (Node.keyPair_private this) (Tx.id tx))
       ∧ Node.nonce this' = Node.nonce this + 1
       ∧ Node.net this' = Node.net this ++ [(POST_TRANSACTION, tx)]
       ∧ Node.pendingOutgoingTransactions this' !! Tx.id tx = Some tx
       ∧ Node.transactions this' = (λ set, set ++ [tx]) <$> Node.transactions this).
Proof.
  intros Hgold. unfold postStakingTransaction. rewrite Hgold. simpl.
  destruct (Z.ltb_spec gold (stakeAmount + fee)) as [Hlt|Hge].
  - split; [done|]. lia.
  - split; [split; [done|lia]|]. intros _.
    exists (post fee (STAKE stakeAmount) this).1, (post fee (STAKE stakeAmount) this).2.
    split; [reflexivity|]. simpl. repeat (split; [reflexivity|]).
    split; [apply lookup_insert_eq|reflexivity].
Qed.

Lemma postStakingTransaction_checks_total_witness :
  availableGold demoNode = Int 950
  ∧ postStakingTransaction (H:=demoUtils) 950 1 demoNode = Throws
  ∧ ∃ tx this', postStakingTransaction (H:=demoUtils) 949 1 demoNode = Returns (tx, this')
                ∧ Tx.data tx = STAKE 949.
Proof.
  assert (availableGold demoNode = Int 950) as Hgold by (vm_compute; reflexivity).
  split; [exact Hgold|]. split.
  - apply (proj1 (postStakingTransaction_checks_total (H:=demoUtils) demoNode 950 1 950 Hgold)).
    lia.
  - destruct (proj2 (postStakingTransaction_checks_total (H:=demoUtils) demoNode 949 1 950 Hgold)
                ltac:(lia)) as (tx & this' & Hpost & Hdata & _).
    exists tx, this'. split; [exact Hpost|exact Hdata].
Defined.

(** X18. Gold that a node has staked in its last confirmed block is no
    longer available to it: when the last confirmed block has a further
    amount staked by the node and all else is the same, the available gold
    is less by that amount. *)
Theorem availableGold_after_stakeGold (this this' : Node.t) (amountStaked : Z) :
  Node.address this' = Node.address this →
  Node.superAvailableGold this' = Node.superAvailableGold this →
  Node.lastConfirmedBlock this'
  = stakeGold (Node.address this) amountStaked (Node.lastConfirmedBlock this) →
  availableGold this' = nsub (availableGold this) (Int amountStaked).
Proof.
  intros Haddr Hsuper Hblock.
  unfold availableGold, node_amountGoldStaked, amountGoldStaked.
  rewrite Haddr, Hsuper, Hblock. unfold stakeGold, amountGoldStaked. simpl.
  rewrite lookup_insert_eq.
  destruct (Node.superAvailableGold this) as [g|[]|];
    destruct (stakeBalances (Node.lastConfirmedBlock this) !! Node.address this)
      as [[s|[]|]|]; simpl; try done; f_equal; lia.
Qed.

Lemma availableGold_after_stakeGold_witness :
  let this' :=
    {| Node.address := "bob"; Node.keyPair_public := "bob"; Node.keyPair_private := "bob";
       Node.nonce := 1; Node.superAvailableGold := Int 1000;
       Node.lastConfirmedBlock := stakeGold "bob" 200 demoBlock;
       Node.pendingOutgoingTransactions := ∅; Node.net := [];
       Node.transactions := Some []; Node.height := 11; Node.round := 1;
       Node.currentBlock := demoBlock; Node.roundAccumPower := ∅ |} in
  availableGold demoNode = Int 950 ∧ availableGold this' = Int 750.
Proof.
  intros this'. split; [vm_compute; reflexivity|].
  rewrite (availableGold_after_stakeGold demoNode this' 200); [|reflexivity..].
  vm_compute. reflexivity.
Defined.

(** ** The genesis block *)

Lemma initStake_frame (stake : list (string * num)) : ∀ genesis,
  balances (initStake stake genesis) = balances genesis
  ∧ unstakingEvents (initStake stake genesis) = unstakingEvents genesis
  ∧ chainLength (initStake stake genesis) = chainLength genesis
  ∧ (stakeBalances genesis = accumPower genesis →
     stakeBalances (initStake stake genesis) = accumPower (initStake stake genesis)).
Proof.
  induction stake as [|[a v] stake IH]; intros genesis; [done|].
  unfold initStake. simpl.
  destruct (IH (set_accumPower (insert a v) (set_stakeBalances (insert a v) genesis)))
    as (Hb & He & Hc & Hagree).
  split; [exact Hb|]. split; [exact He|]. split; [exact Hc|].
  intros Hgen. apply Hagree. simpl. by rewrite Hgen.
Qed.

Lemma initStake_lookup (stake : list (string * num)) : ∀ genesis a,
  NoDup stake.*1 →
  stakeBalances (initStake stake genesis) !! a
  = match objGet stake a with
    | Some v => Some v
    | None => stakeBalances genesis !! a
    end.
Proof.
  induction stake as [|[a' v] stake IH]; intros genesis a Hnd; [done|].
  csimpl in Hnd. apply NoDup_cons in Hnd as [Ha' Hnd].
  unfold initStake. simpl.
  pose proof (IH (set_accumPower (insert a' v) (set_stakeBalances (insert a' v) genesis))
                 a Hnd) as Hlook.
  unfold initStake in Hlook. rewrite Hlook. simpl.
  destruct (decide (a' = a)) as [->|Hne].
  - rewrite (objGet_absent stake a Ha'). apply lookup_insert_eq.
  - destruct (objGet stake a); [done|]. by apply lookup_insert_ne.
Qed.

(** X19. [makeGenesis] throws exactly when the configuration has both or
    neither of [startingStake] and [startingStakeMap].  Otherwise the
    genesis block has each listed address with its starting stake as stake
    and as accumulated power, so that the two maps agree if they did in the
    block of spartan-gold, and its balances and pending events are those of
    that block. *)
Theorem makeGenesis_spec (cfg : GenesisCfg) (genesis : StakeBlock) :
  (makeGenesis cfg genesis = Throws ↔
     (startingStake cfg = None ∧ startingStakeMap cfg = None)
     ∨ (is_Some (startingStake cfg) ∧ is_Some (startingStakeMap cfg)))
  ∧ ∀ g, makeGenesis cfg genesis = Returns g →
      balances g = balances genesis
      ∧ unstakingEvents g = unstakingEvents genesis
      ∧ (stakeBalances genesis = accumPower genesis → stakeBalances g = accumPower g)
      ∧ ∀ stake, (startingStake cfg = Some stake ∨ startingStakeMap cfg = Some stake) →
          NoDup stake.*1 →
          ∀ a, stakeBalances g !! a
               = match objGet stake a with
                 | Some v => Some v
                 | None => stakeBalances genesis !! a
                 end.
Proof.
  unfold makeGenesis.
  destruct (startingStake cfg) as [stake|], (startingStakeMap cfg) as [stakeMap|].
  - split; [split; [intros _; right; split; eauto|done]|done].
  - split.
    { split; [done|]. intros [[? _]|[_ [? ?]]]; done. }
    intros g [= <-]. destruct (initStake_frame stake genesis) as (Hb & He & _ & Hagree).
    split; [done|]. split; [done|]. split; [done|].
    intros stake' [[= <-]|?] Hnd a; [|done]. by apply initStake_lookup.
  - split.
    { split; [done|]. intros [[_ ?]|[[? ?] _]]; done. }
    intros g [= <-].
    destruct (initStake_frame (foldl (λ o entry, objSet o entry.1 entry.2) [] stakeMap)
                genesis) as (Hb & He & _ & Hagree).
    split; [done|]. split; [done|]. split; [done|].
    intros stake' [?|[= <-]] Hnd a; [done|].
    rewrite (objSet_all_fresh stakeMap []) by done. simpl.
    by apply initStake_lookup.
  - split; [split; [intros _; by left|done]|done].
Qed.

Lemma makeGenesis_spec_witness :
  let cfg := {| startingStake := Some [("alice", Int 100); ("bob", Int 50)];
                startingStakeMap := None |} in
  let genesis := {| rewardAddr := ""; chainLength := 0;
                    balances := {[ "alice" := Int 1000 ]}; stakeBalances := ∅;
                    unstakingEvents := ∅; accumPower := ∅ |} in
  ∃ g, makeGenesis cfg genesis = Returns g
       ∧ stakeBalances g = accumPower g
       ∧ stakeBalances g !! "bob" = Some (Int 50).
Proof.
  intros cfg genesis.
  exists (initStake [("alice", Int 100); ("bob", Int 50)] genesis).
  destruct (proj2 (makeGenesis_spec cfg genesis) _ eq_refl) as (_ & _ & Hagree & Hlook).
  split; [reflexivity|]. split; [by apply Hagree|].
  rewrite (Hlook [("alice", Int 100); ("bob", Int 50)]); [reflexivity|by left|run].
Defined.

(** ** Accumulated power, further *)

Lemma updatePower_intValued (stake power : gmap string num) (proposerAddr : string) :
  intValued stake → intValued power →
  is_Some (power !! proposerAddr) ∨ is_Some (stake !! proposerAddr) →
  intValued (updatePower stake power proposerAddr)
  ∧ ∀ a, is_Some (power !! a) ∨ is_Some (stake !! a) →
         is_Some (updatePower stake power proposerAddr !! a).
Proof.
  intros Hstake Hpower Hprop.
  destruct (updatePower_spec stake power proposerAddr) as [Hlook _].
  assert (∀ a, is_Some (power !! a) ∨ is_Some (stake !! a) →
               ∃ z, match stake !! a with
                    | Some s => Some (nadd (orZero (power !! a)) s)
                    | None => power !! a
                    end = Some (Int z)) as Hbumped.
  { intros a Ha. destruct (stake !! a) as [s|] eqn:Hs.
    - destruct (intValued_lookup _ _ _ Hstake Hs) as [z ->].
      destruct (power !! a) as [v|] eqn:Hp.
      + destruct (intValued_lookup _ _ _ Hpower Hp) as [z' ->]. simpl. eauto.
      + simpl. eauto.
    - destruct Ha as [[v Hp]|[? ?]]; [|done]. rewrite Hp.
      destruct (intValued_lookup _ _ _ Hpower Hp) as [z ->]. eauto. }
  destruct (sumValues_int _ Hstake) as [total Htotal].
  split.
  - intros a v. rewrite Hlook. destruct (decide (a = proposerAddr)) as [->|Hne].
    + destruct (Hbumped proposerAddr Hprop) as [z ->]. rewrite Htotal.
      by intros [= <-].
    + intros Ha. destruct (stake !! a) as [s|] eqn:Hs.
      * destruct (Hbumped a) as [z Hz]; [right; eauto|].
        rewrite Hs in Hz. rewrite Hz in Ha. by injection Ha as <-.
      * by apply (Hpower a v).
  - intros a Ha. rewrite Hlook. destruct (decide (a = proposerAddr)); [eauto|].
    destruct (Hbumped a Ha) as [z ->]. eauto.
Qed.

(** X20. Over the rounds of a height the sum of the accumulated power of
    the round stays what it was, however many rounds there are, as long as
    stakes and powers are integers and every proposer has an entry of
    accumulated power or a stake; the block and its stakes are not
    touched. *)
Theorem updateRounds_preserves_total (proposers : list string) (this : Node.t) :
  intValued (stakeBalances (Node.currentBlock this)) →
  intValued (Node.roundAccumPower this) →
  Forall (λ p, is_Some (Node.roundAccumPower this !! p)
               ∨ is_Some (stakeBalances (Node.currentBlock this) !! p)) proposers →
  sumValues (Node.roundAccumPower (updateRounds proposers this))
  = sumValues (Node.roundAccumPower this)
  ∧ intValued (Node.roundAccumPower (updateRounds proposers this))
  ∧ Node.currentBlock (updateRounds proposers this) = Node.currentBlock this.
Proof.
  revert this. induction proposers as [|p proposers IH]; intros this Hstake Hpower Hprop.
  - done.
  - apply Forall_cons in Hprop as [Hp Hprop]. unfold updateRounds. simpl.
    fold (updateRounds proposers (updateRoundAccumPower p this)).
    destruct (updatePower_intValued _ _ p Hstake Hpower Hp) as [Hint Hdom].
    destruct (IH (updateRoundAccumPower p this)) as (Hsum & Hint' & Hblock).
    + done.
    + done.
    + simpl. eapply Forall_impl; [exact Hprop|]. intros a Ha.
      left. by apply Hdom.
    + rewrite Hsum, Hblock. split; [|done].
      by apply (updatePower_spec (stakeBalances (Node.currentBlock this))).
Qed.

Lemma updateRounds_preserves_total_witness :
  let proposers := ["alice"; "bob"; "carol"; "alice"] in
  intValued (stakeBalances (Node.currentBlock demoNode))
  ∧ intValued (Node.roundAccumPower demoNode)
  ∧ sumValues (Node.roundAccumPower demoNode) = Int 200
  ∧ sumValues (Node.roundAccumPower (updateRounds proposers demoNode)) = Int 200.
Proof.
  intros proposers.
  assert (intValued (stakeBalances (Node.currentBlock demoNode))) as Hstake by run.
  assert (intValued (Node.roundAccumPower demoNode)) as Hpower by run.
  assert (Forall (λ p, is_Some (Node.roundAccumPower demoNode !! p)
                       ∨ is_Some (stakeBalances (Node.currentBlock demoNode) !! p))
            proposers) as Hprop by run.
  assert (sumValues (Node.roundAccumPower demoNode) = Int 200) as Hsum
    by (vm_compute; reflexivity).
  split; [exact Hstake|]. split; [exact Hpower|]. split; [exact Hsum|].
  rewrite <-Hsum.
  exact (proj1 (updateRounds_preserves_total proposers demoNode Hstake Hpower Hprop)).
Defined.

(** X21. For a proposer that has neither an entry of accumulated power nor a
    stake, as a validator that has just been slashed, [updateAccumPower]
    stores NaN as its power, and the sum of the accumulated power is NaN. *)
Theorem updateAccumPower_unknown_proposer (b : StakeBlock) (proposerAddr : string) :
  accumPower b !! proposerAddr = None →
  stakeBalances b !! proposerAddr = None →
  accumPower (updateAccumPower proposerAddr b) !! proposerAddr = Some NaN
  ∧ sumValues (accumPower (updateAccumPower proposerAddr b)) = NaN.
Proof.
  intros Hpower Hstake.
  assert (accumPower (updateAccumPower proposerAddr b) !! proposerAddr = Some NaN) as Hnan.
  { unfold updateAccumPower. simpl.
    rewrite (proj1 (updatePower_spec (stakeBalances b) (accumPower b) proposerAddr)).
    rewrite decide_True by done. by rewrite Hstake, Hpower. }
  split; [done|]. by apply (sumValues_NaN _ proposerAddr).
Qed.

Lemma updateAccumPower_unknown_proposer_witness :
  let slashed := slash "alice" demoBlock in
  accumPower slashed !! "alice" = None
  ∧ stakeBalances slashed !! "alice" = None
  ∧ accumPower (updateAccumPower "alice" slashed) !! "alice" = Some NaN.
Proof.
  intros slashed.
  assert (accumPower slashed !! "alice" = None) as Hpower by (vm_compute; reflexivity).
  assert (stakeBalances slashed !! "alice" = None) as Hstake by (vm_compute; reflexivity).
  split; [exact Hpower|]. split; [exact Hstake|].
  exact (proj1 (updateAccumPower_unknown_proposer slashed "alice" Hpower Hstake)).
Defined.

(** ** Rerunning a block *)

Lemma handleUnstakingEvents_updateAccumPower proposerAddr b :
  stakeBalances (handleUnstakingEvents (updateAccumPower proposerAddr b))
  = stakeBalances (handleUnstakingEvents b)
  ∧ unstakingEvents (handleUnstakingEvents (updateAccumPower proposerAddr b))
    = unstakingEvents (handleUnstakingEvents b)
  ∧ accumPower (handleUnstakingEvents (updateAccumPower proposerAddr b))
    = updatePower (stakeBalances b) (accumPower b) proposerAddr.
Proof.
  unfold handleUnstakingEvents. simpl.
  by destruct (unstakingEvents b !! inl (chainLength b)).
Qed.

Lemma handleUnstakingEvents_accumPower b :
  accumPower (handleUnstakingEvents b) = accumPower b.
Proof. unfold handleUnstakingEvents. by destruct (_ !! _). Qed.

(** X22. [rerun] hands to the [rerun] of the base class a block that has
    the stake balances and the pending events of a block newly constructed
    on the parent, and whose accumulated power has been updated with the
    stakes of the parent: before the events due at its height are released
    and before any of its transactions is replayed.  [proposeBlock] updates
    the accumulated power with the stakes its block has after the release
    and after the queued transactions.  The two blocks have the same three
    maps when no event is due at the height and the proposer has no
    transaction queued. *)
Theorem rerun_before_replay `{Utils} {A}
    (superAddTransaction : Tx.t → StakeBlock → option StakeBlock)
    (superRerun : StakeBlock → StakeBlock → A) (prevBlock this : StakeBlock) :
  chainLength this = chainLength prevBlock + 1 →
  ∃ prepared,
    rerun superRerun prevBlock this = superRerun prevBlock prepared
    ∧ rerun (λ _ b, b) prevBlock this = prepared
    ∧ stakeBalances prepared = stakeBalances (newStakeBlock (rewardAddr this) prevBlock)
    ∧ unstakingEvents prepared
      = unstakingEvents (newStakeBlock (rewardAddr this) prevBlock)
    ∧ accumPower prepared
      = updatePower (stakeBalances prevBlock) (accumPower prevBlock) (rewardAddr this)
    ∧ (∀ transactions proposed,
         proposeBlock superAddTransaction (rewardAddr this) transactions prevBlock
         = Returns proposed →
         ∃ currentBlock,
           addTransactions superAddTransaction transactions
             (newStakeBlock (rewardAddr this) prevBlock) = Returns currentBlock
           ∧ stakeBalances proposed = stakeBalances currentBlock
           ∧ unstakingEvents proposed = unstakingEvents currentBlock
           ∧ accumPower proposed
             = updatePower (stakeBalances currentBlock) (accumPower currentBlock)
                 (rewardAddr this))
    ∧ (unstakingEvents prevBlock !! inl (chainLength this) = None →
       ∃ proposed,
         proposeBlock superAddTransaction (rewardAddr this) [] prevBlock = Returns proposed
         ∧ stakeBalances proposed = stakeBalances prepared
         ∧ unstakingEvents proposed = unstakingEvents prepared
         ∧ accumPower proposed = accumPower prepared).
Proof.
  intros Hlen. unfold rerun.
  set (copy := {| rewardAddr := rewardAddr this; chainLength := chainLength this;
                  balances := balances this; stakeBalances := stakeBalances prevBlock;
                  unstakingEvents := unstakingEvents prevBlock;
                  accumPower := accumPower prevBlock |}).
  exists (handleUnstakingEvents (updateAccumPower (rewardAddr this) copy)).
  destruct (handleUnstakingEvents_updateAccumPower (rewardAddr this) copy)
    as (Hs & He & Hp).
  assert (stakeBalances (handleUnstakingEvents copy)
          = stakeBalances (newStakeBlock (rewardAddr this) prevBlock)
          ∧ unstakingEvents (handleUnstakingEvents copy)
            = unstakingEvents (newStakeBlock (rewardAddr this) prevBlock)) as [Hs' He'].
  { unfold newStakeBlock, handleUnstakingEvents. simpl. rewrite Hlen.
    by destruct (unstakingEvents prevBlock !! inl (chainLength prevBlock + 1)). }
  rewrite Hs, He, Hp, Hs', He'.
  do 5 (split; [done|]).
  assert (accumPower (newStakeBlock (rewardAddr this) prevBlock) = accumPower prevBlock)
    as Hpower by (unfold newStakeBlock; by rewrite handleUnstakingEvents_accumPower).
  split.
  - intros transactions proposed. unfold proposeBlock.
    destruct (addTransactions _ _ _) as [currentBlock|]; [|done].
    intros [= <-]. by exists currentBlock.
  - intros Hidle. unfold proposeBlock. simpl. eexists. split; [reflexivity|].
    simpl. split; [done|]. split; [done|]. rewrite Hpower. f_equal.
    unfold newStakeBlock. rewrite handleUnstakingEvents_idle; [done|].
    simpl. by rewrite <-Hlen.
Qed.

Lemma rerun_before_replay_witness :
  let this := {| rewardAddr := "bob"; chainLength := 11; balances := ∅;
                 stakeBalances := ∅; unstakingEvents := ∅; accumPower := ∅ |} in
  let prepared := rerun (λ _ b, b) demoBlock this in
  chainLength this = chainLength demoBlock + 1
  ∧ unstakingEvents demoBlock !! inl (chainLength this) = None
  ∧ accumPower prepared !! "bob" = Some (Int (-100))
  ∧ ∃ proposed,
      proposeBlock (H:=demoUtils) (λ _ b, Some b) "bob" [] demoBlock = Returns proposed
      ∧ accumPower proposed = accumPower prepared.
Proof.
  intros this prepared.
  assert (chainLength this = chainLength demoBlock + 1) as Hlen by reflexivity.
  assert (unstakingEvents demoBlock !! inl (chainLength this) = None) as Hidle
    by (vm_compute; reflexivity).
  split; [exact Hlen|]. split; [exact Hidle|]. split; [vm_compute; reflexivity|].
  destruct (rerun_before_replay (H:=demoUtils) (λ _ b, Some b) (λ _ b, b)
              demoBlock this Hlen)
    as (prepared' & _ & Hprepared & _ & _ & _ & _ & Hsame).
  destruct (Hsame Hidle) as (proposed & Hproposed & _ & _ & Hpower).
  exists proposed. split; [exact Hproposed|].
  subst prepared. rewrite Hprepared. exact Hpower.
Defined.

(** ** Precommit and commit *)



(** X24. [commitDecision] broadcasts at most one vote, and only a commit of
    the validator for a block other than NIL behind which the precommits
    of the ballot box put more than the floor of two thirds of the total
    stake, when the stakes are non-negative integers; the block it commits
    to is the one received under that id, if any.  When no block or NIL has
    won it starts a new round at once, and in every case it empties the
    precommits and keeps the prevotes, the commits and the lock. *)
Theorem commitDecision_two_thirds `{Utils} (DELTA : Z) (e : Engine) :
  nonnegValued (stakeBalances (Node.currentBlock (node e))) →
  let after := commitDecision DELTA e in
  precommits after.1 = []
  ∧ prevotes after.1 = prevotes e
  ∧ commits after.1 = commits e
  ∧ lockedBlock after.1 = lockedBlock e
  ∧ (countVotes (node e) (precommits e) = None ∨ countVotes (node e) (precommits e) = Some NIL →
     after.2 = [SetTimeout "newRound" 0] ∧ nextBlock after.1 = nextBlock e)
  ∧ ∀ channel vote, Broadcast channel vote ∈ after.2 →
      channel = COMMIT
      ∧ vote = makeVote (node e) COMMIT (Vote.blockID vote)
      ∧ Vote.blockID vote ≠ NIL
      ∧ nextBlock after.1 = objGet (proposedBlocks e) (Vote.blockID vote)
      ∧ after.2 = [Broadcast COMMIT vote;
                   SetTimeout "finalizeCommit" (Node.round (node e) * DELTA)]
      ∧ ∃ totalStake votes,
          getTotalStake (Node.currentBlock (node e)) = Int totalStake
          ∧ tally (node e) (precommits e) (Vote.blockID vote) = Int votes
          ∧ 2 * totalStake / 3 < votes.
Proof.
  intros Hstake after. subst after. unfold commitDecision.
  destruct (nonnegValued_sum _ Hstake) as (totalStake & Htotal & _).
  destruct (countVotes_tally (node e) totalStake Hstake Htotal (precommits e)) as [Hwin _].
  destruct (countVotes (node e) (precommits e)) as [w|] eqn:Hw.
  - case_bool_decide as Hnil; simpl.
    + subst w. repeat (split; [done|]).
      intros channel vote Hin. apply list_elem_of_singleton in Hin. done.
    + repeat (split; [done|]). split; [intros [?|[= ?]]; done|].
      intros channel vote Hin. apply elem_of_cons in Hin as [[= -> ->]|Hin].
      * simpl. repeat (split; [done|]).
        destruct (Hwin w eq_refl) as (votes & Hvotes & Hgt). eauto.
      * apply list_elem_of_singleton in Hin. done.
  - simpl. repeat (split; [done|]).
    intros channel vote Hin. apply list_elem_of_singleton in Hin. done.
Qed.

Lemma commitDecision_two_thirds_witness :
  let e := {| node := demoNode; prevotes := []; precommits := demoBallotBox; commits := [];
              proposedBlocks := [("X", demoBlock)]; lockedBlock := None;
              nextBlock := None |} in
  nonnegValued (stakeBalances (Node.currentBlock (node e)))
  ∧ Broadcast COMMIT (makeVote (H:=demoUtils) demoNode COMMIT "X")
    ∈ (commitDecision (H:=demoUtils) 300 e).2
  ∧ nextBlock (commitDecision (H:=demoUtils) 300 e).1 = Some demoBlock.
Proof.
  intros e.
  assert (nonnegValued (stakeBalances (Node.currentBlock (node e)))) as Hstake by run.
  assert (Broadcast COMMIT (makeVote (H:=demoUtils) demoNode COMMIT "X")
          ∈ (commitDecision (H:=demoUtils) 300 e).2) as Hin by (vm_compute; by left).
  split; [exact Hstake|]. split; [exact Hin|].
  destruct (commitDecision_two_thirds (H:=demoUtils) 300 e Hstake)
    as (_ & _ & _ & _ & _ & Hvote).
  destruct (Hvote _ _ Hin) as (_ & _ & _ & Hnext & _).
  rewrite Hnext. reflexivity.
Defined.
